(** * Idle transactions: activity tracking, heartbeat and idle finalisation

    A shallow embedding of [packages/tracing/src/idletransaction.ts]
    ([IdleTransactionSpanRecorder] and [IdleTransaction]) together with the
    properties its specification states about it, followed by the two
    callers of the idle transaction: the routing instrumentation
    ([integrations/tracing/router.ts]) and the event processor of the
    integration ([integrations/browsertracing.ts]).

    Conventions of the embedding:
    - a JavaScript [number] is an exact rational ([Q]); rounding of doubles
      is not modelled;
    - an object used as a dictionary is an association list whose order is
      the insertion order of its keys (what [Object.keys] enumerates for
      keys that are not array indices); keys are ordinary property names,
      the special name [__proto__] is not modelled;
    - objects that are shared by reference (the spans held by the recorder
      and by the callers) live in a store and are named by references;
    - calls that leave the engine (the logger, the pre-finish callback, the
      finish method the transaction inherits, the hub) are appended to a
      trace;
    - the host's timers ([setTimeout]/[clearTimeout]) are a list of pending
      timers; the wall clock ([timestampWithMs], in seconds) is the [now]
      argument of the operation that reads it. *)

From stdpp Require Import base relations list strings.
From Stdlib Require Import QArith.

Close Scope Q_scope.
Open Scope string_scope.
Open Scope list_scope.
Open Scope nat_scope.
Open Scope stdpp_scope.

(** ** JavaScript values *)

Definition Qlt_bool (x y : Q) : bool := negb (Qle_bool y x).

(** [!x] for an optional number: [undefined] and [0] are falsy. *)
Definition falsy (x : option Q) : bool :=
  match x with
  | None => true
  | Some q => Qeq_bool q 0
  end.

(** [x] used as a condition, for an optional boolean. *)
Definition truthy (x : option bool) : bool :=
  match x with
  | Some true => true
  | _ => false
  end.

(** Objects used as dictionaries, [Record<string, V>]. *)
Module JsObject.

Abbreviation t V := (list (string * V)) (only parsing).

(** [o[k]] *)
Fixpoint get {V} (k : string) (o : t V) : option V :=
  match o with
  | [] => None
  | (k', v) :: o' => if String.eqb k' k then Some v else get k o'
  end.

(** [o[k] = v]: an existing key keeps its place, a new one goes last. *)
Fixpoint set {V} (k : string) (v : V) (o : t V) : t V :=
  match o with
  | [] => [(k, v)]
  | (k', v') :: o' =>
      if String.eqb k' k then (k', v) :: o' else (k', v') :: set k v o'
  end.

(** [delete o[k]] *)
Definition delete {V} (k : string) (o : t V) : t V :=
  filter (λ kv, kv.1 ≠ k) o.

(** [Object.keys(o)] *)
Definition keys {V} (o : t V) : list string := o.*1.

End JsObject.

(** ** Spans *)

(** Modelled from the spec: [spanstatus.ts] is not among the sources; the
    data model names these statuses, and "unset" is the absence of one. *)
Inductive SpanStatus : Type :=
  | Ok
  | Cancelled
  | DeadlineExceeded.

(** Modelled from the spec: [span.ts] is not among the sources.  A span has
    an identifier, a start timestamp, an optional end timestamp (unset means
    open), a status and a tag mapping.  [finishWrappers] counts how many
    times [IdleTransactionSpanRecorder.add] has replaced the span's
    [finish] method by a wrapper around the previous one. *)
Record Span : Type := mkSpan {
  spanId : string;
  startTimestamp : Q;
  endTimestamp : option Q;
  status : option SpanStatus;
  tags : JsObject.t string;
  finishWrappers : nat
}.

Definition set_endTimestamp (e : option Q) (s : Span) : Span :=
  mkSpan (spanId s) (startTimestamp s) e (status s) (tags s) (finishWrappers s).

(** Modelled from the spec: [Span.setStatus] stores the status. *)
Definition setStatus (v : SpanStatus) (s : Span) : Span :=
  mkSpan (spanId s) (startTimestamp s) (endTimestamp s) (Some v) (tags s)
         (finishWrappers s).

(** Modelled from the spec: [Span.setTag] stores one entry of the tag
    mapping. *)
Definition setTag (k v : string) (s : Span) : Span :=
  mkSpan (spanId s) (startTimestamp s) (endTimestamp s) (status s)
         (JsObject.set k v (tags s)) (finishWrappers s).

Definition wrapFinish (s : Span) : Span :=
  mkSpan (spanId s) (startTimestamp s) (endTimestamp s) (status s) (tags s)
         (S (finishWrappers s)).

(** A reference to a span object: the transaction itself (it is a span, and
    it is the root of its tree), or a span allocated in the store. *)
Inductive SpanRef : Type :=
  | This
  | Child (n : nat).

Global Instance SpanRef_eq_dec : EqDecision SpanRef.
Proof. solve_decision. Defined.

(** ** Calls that leave the engine *)

Inductive Event : Type :=
  | LogHeartbeatSafeguard
  | LogCancellingSpan (r : SpanRef)
  | LogDiscardingSpan (r : SpanRef)
  | LogFlushing
  | LogNoActive
  | CallConfigureScope
  | CallFinishCallback (cb : nat)
  | CallFinish (endTimestamp : option Q).

(** ** Timers of the host *)

Inductive TimerCallback : Type :=
  | BeatCallback
  | FinishIdleCallback (end_ : Q).

(** A pending [setTimeout]: [delay] is in milliseconds, [scheduledAt] is the
    clock (in seconds) when it was armed. *)
Record Timer : Type := mkTimer {
  timerId : nat;
  scheduledAt : Q;
  delay : Q;
  callback : TimerCallback
}.

(** ** The recorder and the transaction *)

(** [IdleTransactionSpanRecorder]: the bound and the sequence it inherits
    from [SpanRecorder], and whether each optional callback was given. *)
Record IdleTransactionSpanRecorder : Type := mkRecorder {
  maxlen : nat;
  spans : list SpanRef;
  has_pushActivity : bool;
  has_popActivity : bool
}.

Definition set_spans (l : list SpanRef) (rec : IdleTransactionSpanRecorder)
  : IdleTransactionSpanRecorder :=
  mkRecorder (maxlen rec) l (has_pushActivity rec) (has_popActivity rec).

(** [IdleTransaction]: [base] holds the fields it has as a span,
    [spanRecorder] and the six fields after it are those of the class; the
    last four are the environment the methods act on: the store of the other
    spans, the host's pending timers and the trace of outgoing calls. *)
Record IdleTransaction : Type := mkIdleTransaction {
  base : Span;
  spanRecorder : option IdleTransactionSpanRecorder;
  _idleTimeout : Q;
  activities : JsObject.t bool;
  _heartbeatTimer : nat;
  _prevHeartbeatString : option string;
  _heartbeatCounter : nat;
  _finishCallback : option nat;
  children : list Span;
  timers : list Timer;
  nextTimerId : nat;
  trace : list Event
}.

Section Setters.
Variable st : IdleTransaction.

Definition set_base (x : Span) : IdleTransaction :=
  mkIdleTransaction x (spanRecorder st) (_idleTimeout st) (activities st)
    (_heartbeatTimer st) (_prevHeartbeatString st) (_heartbeatCounter st)
    (_finishCallback st) (children st) (timers st) (nextTimerId st)
    (trace st).

Definition set_spanRecorder (x : option IdleTransactionSpanRecorder)
  : IdleTransaction :=
  mkIdleTransaction (base st) x (_idleTimeout st) (activities st)
    (_heartbeatTimer st) (_prevHeartbeatString st) (_heartbeatCounter st)
    (_finishCallback st) (children st) (timers st) (nextTimerId st)
    (trace st).

Definition set_activities (x : JsObject.t bool) : IdleTransaction :=
  mkIdleTransaction (base st) (spanRecorder st) (_idleTimeout st) x
    (_heartbeatTimer st) (_prevHeartbeatString st) (_heartbeatCounter st)
    (_finishCallback st) (children st) (timers st) (nextTimerId st)
    (trace st).

Definition set_heartbeatTimer (x : nat) : IdleTransaction :=
  mkIdleTransaction (base st) (spanRecorder st) (_idleTimeout st)
    (activities st) x (_prevHeartbeatString st) (_heartbeatCounter st)
    (_finishCallback st) (children st) (timers st) (nextTimerId st)
    (trace st).

Definition set_heartbeat (prev : option string) (counter : nat)
  : IdleTransaction :=
  mkIdleTransaction (base st) (spanRecorder st) (_idleTimeout st)
    (activities st) (_heartbeatTimer st) prev counter
    (_finishCallback st) (children st) (timers st) (nextTimerId st)
    (trace st).

Definition set_finishCallback (x : option nat) : IdleTransaction :=
  mkIdleTransaction (base st) (spanRecorder st) (_idleTimeout st)
    (activities st) (_heartbeatTimer st) (_prevHeartbeatString st)
    (_heartbeatCounter st) x (children st) (timers st) (nextTimerId st)
    (trace st).

Definition set_children (x : list Span) : IdleTransaction :=
  mkIdleTransaction (base st) (spanRecorder st) (_idleTimeout st)
    (activities st) (_heartbeatTimer st) (_prevHeartbeatString st)
    (_heartbeatCounter st) (_finishCallback st) x (timers st)
    (nextTimerId st) (trace st).

Definition set_timers (x : list Timer) (next : nat) : IdleTransaction :=
  mkIdleTransaction (base st) (spanRecorder st) (_idleTimeout st)
    (activities st) (_heartbeatTimer st) (_prevHeartbeatString st)
    (_heartbeatCounter st) (_finishCallback st) (children st) x next
    (trace st).

Definition emit (e : Event) : IdleTransaction :=
  mkIdleTransaction (base st) (spanRecorder st) (_idleTimeout st)
    (activities st) (_heartbeatTimer st) (_prevHeartbeatString st)
    (_heartbeatCounter st) (_finishCallback st) (children st) (timers st)
    (nextTimerId st) (trace st ++ [e]).
End Setters.

(** Reading and writing a span through a reference. *)
Definition deref (st : IdleTransaction) (r : SpanRef) : option Span :=
  match r with
  | This => Some (base st)
  | Child n => children st !! n
  end.

Definition store (r : SpanRef) (s : Span) (st : IdleTransaction)
  : IdleTransaction :=
  match r with
  | This => set_base st s
  | Child n => set_children st (<[n:=s]> (children st))
  end.

(** [setTimeout(cb, ms)] returns the identifier of the new timer. *)
Definition setTimeout (cb : TimerCallback) (ms : Q) (now : Q)
    (st : IdleTransaction) : nat * IdleTransaction :=
  (nextTimerId st,
   set_timers st (timers st ++ [mkTimer (nextTimerId st) now ms cb])
              (S (nextTimerId st))).

(** [clearTimeout(id)]; an identifier that names no pending timer (such as
    the initial [0]) clears nothing. *)
Definition clearTimeout (id : nat) (st : IdleTransaction) : IdleTransaction :=
  set_timers st (filter (λ t, timerId t ≠ id) (timers st)) (nextTimerId st).

(** ** [IdleTransaction]: heartbeat arming, activities *)

(** [_pingHeartbeat]: arm a timer that calls [_beat] after 5000 ms. *)
Definition _pingHeartbeat (now : Q) (st : IdleTransaction) : IdleTransaction :=
  let '(id, st1) := setTimeout BeatCallback 5000 now st in
  set_heartbeatTimer st1 id.

(** [_pushActivity]: [this.activities[spanId] = true]. *)
Definition _pushActivity (id : string) (st : IdleTransaction)
  : IdleTransaction :=
  set_activities st (JsObject.set id true (activities st)).

(** [_popActivity]: delete the key when its entry is truthy; then, whenever
    no key is left, arm the delayed finish with the end timestamp computed
    now (the clock is in seconds, the timeout in milliseconds). *)
Definition _popActivity (id : string) (now : Q) (st : IdleTransaction)
  : IdleTransaction :=
  let st1 :=
    if truthy (JsObject.get id (activities st))
    then set_activities st (JsObject.delete id (activities st))
    else st in
  let count := length (JsObject.keys (activities st1)) in
  if Nat.eqb count 0 then
    let timeout := _idleTimeout st1 in
    let end_ := (now + timeout / 1000)%Q in
    (setTimeout (FinishIdleCallback end_) timeout now st1).2
  else st1.

(** The two closures [initSpanRecorder] hands to the recorder: both skip the
    transaction's own identifier. *)
Definition pushActivity (id : string) (st : IdleTransaction)
  : IdleTransaction :=
  if String.eqb id (spanId (base st)) then st else _pushActivity id st.

Definition popActivity (id : string) (now : Q) (st : IdleTransaction)
  : IdleTransaction :=
  if String.eqb id (spanId (base st)) then st else _popActivity id now st.

(** [beforeFinish]: register the callback that runs before the transaction
    finishes ([None] is a call with [undefined]). *)
Definition beforeFinish (cb : option nat) (st : IdleTransaction)
  : IdleTransaction :=
  set_finishCallback st cb.

(** ** The recorder *)

(** Modelled from the spec: [SpanRecorder.add] (in [transaction.ts], not
    among the sources) appends the span and evicts the oldest one when the
    bound is exceeded. *)
Definition SpanRecorder_add (r : SpanRef) (rec : IdleTransactionSpanRecorder)
  : IdleTransactionSpanRecorder :=
  let l := spans rec ++ [r] in
  set_spans (if Nat.ltb (maxlen rec) (length l) then drop 1 l else l) rec.

(** [IdleTransactionSpanRecorder.add], on the recorder of the transaction:
    wrap the span's [finish], add the span to the sequence, then report its
    identifier to the push callback if there is one. *)
Definition add (r : SpanRef) (st : IdleTransaction) : IdleTransaction :=
  match spanRecorder st, deref st r with
  | Some rec, Some span =>
      let st1 := store r (wrapFinish span) st in
      let st2 := set_spanRecorder st1 (Some (SpanRecorder_add r rec)) in
      if has_pushActivity rec then pushActivity (spanId span) st2 else st2
  | _, _ => st
  end.

(** The tail of a wrapped [finish]: each wrapper, after the method it
    replaced has returned, reports the span's identifier to the pop callback
    of the recorder if there is one. *)
Definition afterFinish (id : string) (now : Q) (st : IdleTransaction)
  : IdleTransaction :=
  match spanRecorder st with
  | Some rec => if has_popActivity rec then popActivity id now st else st
  | None => st
  end.

(** Modelled from the spec: [Span.finish] (in [span.ts], not among the
    sources) closes the span at the given timestamp, or at the current time
    when none is given. *)
Definition Span_finish (endTimestamp : option Q) (now : Q) (s : Span) : Span :=
  set_endTimestamp (Some (default now endTimestamp)) s.

(** Modelled from the spec: [Transaction.finish] (in [transaction.ts], not
    among the sources) is the finish path under the idle transaction.  Its
    invocation is recorded in the trace with the argument it is given, as
    the mock of the test suite records it. *)
Definition Transaction_finish (endTimestamp : option Q) (st : IdleTransaction)
  : IdleTransaction :=
  emit st (CallFinish endTimestamp).

(** [span.finish(endTimestamp)] on a span of the store.  A span the
    recorder has not wrapped runs the method of [Span] on itself.  On a span
    that [add] has wrapped the wrapper runs: it calls the method it replaced
    as a plain function, [oldFinish(endTimestamp)], and not on the span, so
    that method has no span to write to and the end timestamp of the span
    stays as it was; then the tail of each wrapper runs, the innermost
    first. *)
Definition finishSpan (n : nat) (endTimestamp : option Q) (now : Q)
    (st : IdleTransaction) : IdleTransaction :=
  match children st !! n with
  | Some span =>
      let st1 :=
        match finishWrappers span with
        | 0 => store (Child n) (Span_finish endTimestamp now span) st
        | S _ => st
        end in
      Nat.iter (finishWrappers span) (afterFinish (spanId span) now) st1
  | None => st
  end.

(** [this.finish(endTimestamp)] on the transaction, as [add] leaves it. *)
Definition finish (endTimestamp : option Q) (now : Q) (st : IdleTransaction)
  : IdleTransaction :=
  let st1 := Transaction_finish endTimestamp st in
  Nat.iter (finishWrappers (base st1))
           (afterFinish (spanId (base st1)) now) st1.

(** [initSpanRecorder]: create the recorder if there is none, then add the
    transaction itself to it. *)
Definition initSpanRecorder (maxlen : nat) (st : IdleTransaction)
  : IdleTransaction :=
  let st1 :=
    match spanRecorder st with
    | None => set_spanRecorder st (Some (mkRecorder maxlen [] true true))
    | Some _ => st
    end in
  add This st1.

(** Modelled from the spec: [startChild] (in [span.ts], not among the
    sources) creates an open span with the given identifier, started now,
    and adds it to the recorder of the transaction when there is one.  It
    returns the reference to the new span. *)
Definition startChild (id : string) (now : Q) (st : IdleTransaction)
  : SpanRef * IdleTransaction :=
  let n := length (children st) in
  let st1 := set_children st (children st ++ [mkSpan id now None None [] 0]) in
  (Child n, add (Child n) st1).

(** ** Finishing the idle transaction *)

(** The callback of [spans.filter] in [_finishIdleTransaction], applied to
    the elements in order; it returns the references it keeps and the state
    after the writes and the log calls it makes on the way.  A reference
    that names no span cannot occur in a sequence built by [add]; it is
    skipped. *)
Fixpoint filterSpans (endTs : Q) (rs : list SpanRef)
    (st : IdleTransaction) : list SpanRef * IdleTransaction :=
  match rs with
  | [] => ([], st)
  | r :: rs' =>
      match deref st r with
      | None => filterSpans endTs rs' st
      | Some span =>
          if String.eqb (spanId span) (spanId (base st)) then
            let '(kept, st') := filterSpans endTs rs' st in
            (r :: kept, st')
          else
            let st1 :=
              if falsy (endTimestamp span)
              then emit (store r (setStatus Cancelled
                                    (set_endTimestamp (Some endTs) span))
                               st)
                        (LogCancellingSpan r)
              else st in
            let keepSpan := Qlt_bool (startTimestamp span) endTs in
            let st2 := if keepSpan then st1 else emit st1 (LogDiscardingSpan r) in
            let '(kept, st') := filterSpans endTs rs' st2 in
            (if keepSpan then r :: kept else kept, st')
      end
  end.

(** [_finishIdleTransaction] *)
Definition _finishIdleTransaction (endTs : Q) (now : Q)
    (st : IdleTransaction) : IdleTransaction :=
  match spanRecorder st with
  | Some rec =>
      let st1 :=
        match _finishCallback st with
        | Some cb => emit st (CallFinishCallback cb)
        | None => st
        end in
      let '(kept, st2) := filterSpans endTs (spans rec) st1 in
      let st3 := set_spanRecorder st2 (Some (set_spans kept rec)) in
      finish None now (emit st3 LogFlushing)
  | None => emit st LogNoActive
  end.

(** ** The heartbeat *)

(** [keys.length ? keys.reduce((prev, current) => prev + current) : ''] *)
Definition heartbeatString (keys : list string) : string :=
  match keys with
  | [] => EmptyString
  | k :: ks => fold_left String.append ks k
  end.

(** [_beat] *)
Definition _beat (now : Q) (st : IdleTransaction) : IdleTransaction :=
  let st1 := clearTimeout (_heartbeatTimer st) st in
  let hb := heartbeatString (JsObject.keys (activities st1)) in
  let counter :=
    if decide (Some hb = _prevHeartbeatString st1)
    then S (_heartbeatCounter st1)
    else 1 in
  let st2 := set_heartbeat st1 (Some hb) counter in
  if Nat.leb 3 counter then
    let st3 := emit st2 LogHeartbeatSafeguard in
    let st4 := set_base st3 (setStatus DeadlineExceeded (base st3)) in
    let st5 := set_base st4 (setTag "heartbeat" "failed" (base st4)) in
    _finishIdleTransaction now now st5
  else _pingHeartbeat now st2.

(** The constructor: the fields, the registration on the hub's scope when a
    hub is given, and the first heartbeat.  [idleTimeout] defaults to 500. *)
Definition new_IdleTransaction (id : string) (hub : bool)
    (idleTimeout : option Q) (now : Q) : IdleTransaction :=
  let st0 :=
    mkIdleTransaction (mkSpan id now None None [] 0) None
      (default 500%Q idleTimeout) [] 0 None 0 None [] [] 1 [] in
  let st1 := if hub then emit st0 CallConfigureScope else st0 in
  _pingHeartbeat now st1.

(** ** The host's event loop *)

Definition runCallback (cb : TimerCallback) (now : Q) (st : IdleTransaction)
  : IdleTransaction :=
  match cb with
  | BeatCallback => _beat now st
  | FinishIdleCallback end_ => _finishIdleTransaction end_ now st
  end.

(** The clock (in seconds) from which a timer may fire. *)
Definition due (t : Timer) : Q := (scheduledAt t + delay t / 1000)%Q.

(** The pending list without the timer [id]. *)
Definition unschedule (id : nat) (st : IdleTransaction) : IdleTransaction :=
  set_timers st (filter (λ t', timerId t' ≠ id) (timers st)) (nextTimerId st).

(** The host runs a pending timer at [now], not before it is due: the timer
    leaves the pending list and its callback runs.  [None] when the timer is
    not pending or not yet due. *)
Definition fire (id : nat) (now : Q) (st : IdleTransaction)
  : option IdleTransaction :=
  match list_find (λ t, timerId t = id) (timers st) with
  | Some (_, t) =>
      if Qle_bool (due t) now
      then Some (runCallback (callback t) now (unschedule id st))
      else None
  | None => None
  end.

(** ** Observations on a state *)

Definition isCallFinish (e : Event) : bool :=
  match e with
  | CallFinish _ => true
  | _ => false
  end.

Definition isCallFinishCallback (e : Event) : bool :=
  match e with
  | CallFinishCallback _ => true
  | _ => false
  end.

(** How many times the inherited finish path has been entered, and how many
    times the pre-finish callback has been invoked. *)
Definition finishCalls (st : IdleTransaction) : nat :=
  length (List.filter isCallFinish (trace st)).

Definition callbackCalls (st : IdleTransaction) : nat :=
  length (List.filter isCallFinishCallback (trace st)).


(** The span a finalisation at [endTs] leaves in place of an open one. *)
Definition cancelled (endTs : Q) (s : Span) : Span :=
  setStatus Cancelled (set_endTimestamp (Some endTs) s).

(** What the filter of [_finishIdleTransaction] does to one span, and
    whether it keeps a reference. *)
Definition closeOpen (endTs : Q) (root : string) (s : Span) : Span :=
  if String.eqb (spanId s) root then s
  else if falsy (endTimestamp s) then cancelled endTs s else s.

Definition keepRef (endTs : Q) (st : IdleTransaction) (r : SpanRef) : bool :=
  match deref st r with
  | None => false
  | Some s =>
      String.eqb (spanId s) (spanId (base st))
      || Qlt_bool (startTimestamp s) endTs
  end.

(** Timer identifiers are handed out in increasing order. *)
Definition timers_fresh (st : IdleTransaction) : Prop :=
  ∀ t, t ∈ timers st → timerId t < nextTimerId st.

(** The step the filter makes on a span that is not the transaction. *)
Definition filterStep (endTs : Q) (r : SpanRef) (span : Span)
    (st : IdleTransaction) : IdleTransaction :=
  let st1 :=
    if falsy (endTimestamp span)
    then emit (store r (cancelled endTs span) st) (LogCancellingSpan r)
    else st in
  if Qlt_bool (startTimestamp span) endTs then st1
  else emit st1 (LogDiscardingSpan r).

(** Successive runs of [_finishIdleTransaction], one per pair of an end
    timestamp and the clock at which it runs. *)
Definition finishIdleTransactions (calls : list (Q * Q)) (st : IdleTransaction)
  : IdleTransaction :=
  foldl (λ s c, _finishIdleTransaction c.1 c.2 s) st calls.

(** ** Scenarios *)

(** A transaction with an idle timeout of one second, created at time 0 and
    attached to a recorder of ten spans, with a pre-finish callback. *)
Definition started : IdleTransaction :=
  beforeFinish (Some 7)
    (initSpanRecorder 10 (new_IdleTransaction "root" true (Some 1000%Q) 0%Q)).

(** A child is started at 1 and finished at 2, which arms the delayed finish
    as timer 2 with end timestamp 3. *)
Definition idle_armed : IdleTransaction :=
  finishSpan 0 None 2%Q (startChild "a" 1%Q started).2.

(** Then a second child is started at 2.5, before the timer is due. *)
Definition resumed : IdleTransaction :=
  (startChild "b" (5 # 2)%Q idle_armed).2.

(** The second child is finished at 2.8, which arms a second delayed finish
    as timer 3. *)
Definition idle_armed_twice : IdleTransaction :=
  finishSpan 1 None (14 # 5)%Q resumed.

(** The first child is finished a second time, at 2.5. *)
Definition finished_twice : IdleTransaction :=
  finishSpan 0 None (5 # 2)%Q idle_armed.

(** The host is late: a child is started at 5, after the end timestamp of
    the pending delayed finish, which has not run yet. *)
Definition late_child : IdleTransaction :=
  (startChild "c" 5%Q idle_armed).2.

(** Two children ["a"] and ["bc"] are open at the first heartbeat; before
    the second one ["ab"] and ["c"] are started and the first two are
    finished. *)
Definition before_first_beat : IdleTransaction :=
  (startChild "bc" 2%Q (startChild "a" 1%Q started).2).2.

Definition before_second_beat (st : IdleTransaction) : IdleTransaction :=
  finishSpan 1 None 9%Q
    (finishSpan 0 None 8%Q
       (startChild "c" 7%Q (startChild "ab" 6%Q st).2).2).

(** ** Runs of child spans *)

(** One call made by the instrumented code: [startChild] on the
    transaction, or [finish] on the span the [n]-th [startChild] returned
    (any number of times, with or without an end timestamp). *)
Inductive ChildCall : Type :=
  | StartChild (id : string) (now : Q)
  | FinishChild (n : nat) (endTimestamp : option Q) (now : Q).

Definition callChild (st : IdleTransaction) (c : ChildCall) : IdleTransaction :=
  match c with
  | StartChild id now => (startChild id now st).2
  | FinishChild n endTs now => finishSpan n endTs now st
  end.

Definition callChildren (cs : list ChildCall) (st : IdleTransaction)
  : IdleTransaction :=
  foldl callChild st cs.

(** The identifiers under which a sequence of calls starts spans. *)
Definition startedIds (cs : list ChildCall) : list string :=
  omap (λ c, match c with
             | StartChild id _ => Some id
             | FinishChild _ _ _ => None
             end) cs.

(** The bookkeeping the specification words, kept from the calls alone and
    not read from the transaction: the spans started so far, in the order of
    their start, each with its identifier and whether [finish] has been
    called on it. *)
Definition spec_ledger_step (l : list (string * bool)) (c : ChildCall)
  : list (string * bool) :=
  match c with
  | StartChild id _ => l ++ [(id, false)]
  | FinishChild n _ _ => alter (λ p, (p.1, true)) n l
  end.

Definition spec_ledger (cs : list ChildCall) : list (string * bool) :=
  foldl spec_ledger_step [] cs.

(** The identifiers of the spans that have been started and not yet
    finished, the identifier [root] of the transaction left out. *)
Definition spec_unfinished (root : string) (cs : list ChildCall)
  : list string :=
  (filter (λ p, p.2 = false ∧ p.1 ≠ root) (spec_ledger cs)).*1.

(** What such calls maintain between the transaction and the ledger. *)
Definition tracking (root : string) (l : list (string * bool))
    (st : IdleTransaction) : Prop :=
  spanId (base st) = root
  ∧ (∃ rec, spanRecorder st = Some rec
            ∧ has_pushActivity rec = true ∧ has_popActivity rec = true)
  ∧ Forall (λ kv, kv.2 = true) (activities st)
  ∧ NoDup (JsObject.keys (activities st))
  ∧ spanId <$> children st = l.*1
  ∧ Forall (λ s, 0 < finishWrappers s) (children st)
  ∧ ∀ k, k ∈ JsObject.keys (activities st)
         ↔ (k, false) ∈ l ∧ k ≠ root.

(** ** Runs of the engine *)

(** Anything that can happen to a transaction: the instrumented code starts
    a child, finishes a span or the transaction, registers a callback or
    attaches the recorder, and the host runs a pending timer that is due. *)
Inductive engineStep : relation IdleTransaction :=
  | engineStep_startChild (id : string) (now : Q) (st : IdleTransaction) :
      engineStep st (startChild id now st).2
  | engineStep_finishSpan (n : nat) (endTs : option Q) (now : Q)
      (st : IdleTransaction) :
      engineStep st (finishSpan n endTs now st)
  | engineStep_finish (endTs : option Q) (now : Q) (st : IdleTransaction) :
      engineStep st (finish endTs now st)
  | engineStep_beforeFinish (cb : option nat) (st : IdleTransaction) :
      engineStep st (beforeFinish cb st)
  | engineStep_initSpanRecorder (maxlen : nat) (st : IdleTransaction) :
      engineStep st (initSpanRecorder maxlen st)
  | engineStep_fire (id : nat) (now : Q) (st st' : IdleTransaction) :
      fire id now st = Some st' →
      engineStep st st'.

(** The part of the state the timers and the heartbeat live in. *)
Definition timerView (st : IdleTransaction) : list Timer * nat * nat * nat :=
  (timers st, nextTimerId st, _heartbeatTimer st, _heartbeatCounter st).

(** Timer identifiers are fresh, and a pending heartbeat is the one the
    transaction remembers and finds a counter of at most 2. *)
Definition heartbeat_inv (st : IdleTransaction) : Prop :=
  timers_fresh st
  ∧ ∀ t, t ∈ timers st → callback t = BeatCallback →
         timerId t = _heartbeatTimer st ∧ _heartbeatCounter st ≤ 2.

(** ** Further invariants of the runs of the engine *)

(** No two pending timers share an identifier. *)
Definition timers_unique (st : IdleTransaction) : Prop :=
  timers_fresh st ∧ NoDup (timerId <$> timers st).

(** The identifier of the transaction is not an activity, no key occurs
    twice and every flag is [true]. *)
Definition activities_wf (st : IdleTransaction) : Prop :=
  (spanId (base st) ∉ JsObject.keys (activities st))
  ∧ NoDup (JsObject.keys (activities st))
  ∧ Forall (λ kv, kv.2 = true) (activities st).

(** The concatenation of a list of strings, by recursion on the list. *)
Definition flatten (l : list string) : string :=
  foldr String.append EmptyString l.

(** ** The routing instrumentation ([integrations/tracing/router.ts])

    [TracingRouter] keeps at most one active idle transaction.  The hub and
    the type of [window.location] are not among the sources: the type
    [Location] with its [pathname], and what [hub.startTransaction] returns
    for a name, an operation, the [trimEnd] flag, an idle timeout and the
    clock, are parameters.  The transaction objects the hub has handed out
    are kept in a store, in the order of their creation, and named by their
    index. *)
Module TracingRouter.
Section TracingRouter.

Variable Location : Type.
Variable pathname : Location → string.
Variable startTransaction : string → string → bool → Q → Q → IdleTransaction.

(** [Partial<TracingRouterOptions>]: any field may be absent. *)
Record Options : Type := mkOptions {
  idleTimeout : option Q;
  startTransactionOnLocationChange : option bool;
  startTransactionOnPageLoad : option bool;
  beforeNavigate : option (Location → option string)
}.

(** The router, the transactions created so far, and the arguments of [init]
    each registered history handler has captured (the hub, as whether it is
    there, the idle timeout and the callback). *)
Record t : Type := mkRouter {
  options : Options;
  _activeTransaction : option nat;
  transactions : list IdleTransaction;
  historyHandlers : list (bool * Q * option nat)
}.

(** [new TracingRouter(_options)]: the options default to [{}]. *)
Definition new (_options : option Options) : t :=
  mkRouter (default (mkOptions None None None None) _options) None [] [].

Definition set_active (a : option nat) (r : t) : t :=
  mkRouter (options r) a (transactions r) (historyHandlers r).

(** A method call on the transaction [h]. *)
Definition call (h : nat) (f : IdleTransaction → IdleTransaction) (r : t) : t :=
  mkRouter (options r) (_activeTransaction r) (alter f h (transactions r))
           (historyHandlers r).

(** [_startIdleTransaction]; [location] is [window.location], absent when
    there is no global object or it has no location. *)
Definition _startIdleTransaction (hub : bool) (op : string) (timeout : Q)
    (location : option Location) (now : Q) (r : t) : option nat * t :=
  match location with
  | Some loc =>
      if negb hub then (None, r)
      else
        let name :=
          match beforeNavigate (options r) with
          | Some f => f loc
          | None => Some (pathname loc)
          end in
        match name with
        | None => (None, r)
        | Some name =>
            let h := length (transactions r) in
            (Some h,
             mkRouter (options r) (Some h)
               (transactions r ++ [startTransaction name op true timeout now])
               (historyHandlers r))
        end
  | None => (None, r)
  end.

(** The callback [init] registers for history changes.  The clock is read
    once for the [finish] of the active transaction ([now]) and the hub
    reads it when it creates the next one ([now']). *)
Definition historyCallback (hub : bool) (timeout : Q) (cb : option nat)
    (location : option Location) (now now' : Q) (r : t) : t :=
  if truthy (startTransactionOnLocationChange (options r)) then
    let r1 :=
      match _activeTransaction r with
      | Some h => call h (finish (Some now) now) r
      | None => r
      end in
    let '(res, r2) :=
      _startIdleTransaction hub "navigation" timeout location now' r1 in
    let r3 := set_active res r2 in
    match res with
    | Some h => call h (beforeFinish cb) r3
    | None => r3
    end
  else r.

(** [init] *)
Definition init (hub : bool) (timeout : Q) (cb : option nat)
    (location : option Location) (now : Q) (r : t) : t :=
  let r1 :=
    if truthy (startTransactionOnPageLoad (options r)) then
      let '(res, r') :=
        _startIdleTransaction hub "pageload" timeout location now r in
      let r'' := set_active res r' in
      match res, cb with
      | Some h, Some _ => call h (beforeFinish cb) r''
      | _, _ => r''
      end
    else r in
  mkRouter (options r1) (_activeTransaction r1) (transactions r1)
           (historyHandlers r1 ++ [(hub, timeout, cb)]).

(** The states of a router that was constructed, initialised once, and has
    seen any number of history changes since. *)
Inductive reachable (opts : option Options) (hub : bool) (timeout : Q)
    (cb : option nat) : t → Prop :=
  | reachable_init (location : option Location) (now : Q) :
      reachable opts hub timeout cb
        (init hub timeout cb location now (new opts))
  | reachable_history (location : option Location) (now now' : Q) (r : t) :
      reachable opts hub timeout cb r →
      reachable opts hub timeout cb
        (historyCallback hub timeout cb location now now' r).

End TracingRouter.
End TracingRouter.

(** A hub and a router for the scenarios: locations are their own path, the
    hub constructs an idle transaction named by its span identifier and
    attaches a recorder, and [beforeNavigate] refuses the path ["/skip"]. *)
Definition scenario_startTransaction (name op : string) (trimEnd : bool)
    (timeout now : Q) : IdleTransaction :=
  initSpanRecorder 1000 (new_IdleTransaction name true (Some timeout) now).

Definition scenario_options : TracingRouter.Options string :=
  TracingRouter.mkOptions string (Some 500%Q) (Some true) (Some true)
    (Some (λ loc, if String.eqb loc "/skip" then None else Some loc)).

Definition scenario_router : TracingRouter.t string :=
  TracingRouter.init string (λ loc, loc) scenario_startTransaction
    true 500%Q (Some 7) (Some "/") 0%Q
    (TracingRouter.new string (Some scenario_options)).

(** ** The integration ([integrations/browsertracing.ts])

    The event processor [setupOnce] installs, and the options it reads.  Of
    an event only the fields the processor reads or writes are kept; the
    processor changes the event in place, so any other field is untouched. *)
Module BrowserTracing.

(** A value of the trace context: a string, or a span status. *)
Inductive JsValue : Type :=
  | JsString (s : string)
  | JsStatus (v : SpanStatus).

(** The event: [contexts] maps a name to a context, [event.contexts.trace]
    is its entry ["trace"]. *)
Record Event : Type := mkEvent {
  timestamp : option Q;
  start_timestamp : option Q;
  type_ : option string;
  contexts : option (JsObject.t (JsObject.t JsValue));
  tags : option (JsObject.t string)
}.

(** What the processor and [_log] read of [BrowserTracing.options]: the
    maximum duration, in seconds, and [debug.writeAsBreadcrumbs] ([debug] is
    [None] when there is no debug object). *)
Record Options : Type := mkOptions {
  maxTransactionDuration : Q;
  debug : option bool
}.

(** What [_log] calls. *)
Inductive LogCall : Type :=
  | AddBreadcrumb
  | LoggerLog.

(** [_log]: a breadcrumb when [debug.writeAsBreadcrumbs] is set and the hub
    getter is known, then the logger in every case. *)
Definition _log (opts : Options) (getCurrentHub : bool) : list LogCall :=
  (if truthy (debug opts) && getCurrentHub then [AddBreadcrumb] else [])
  ++ [LoggerLog].

(** [isOutdatedTransaction], as a condition. *)
Definition isOutdatedTransaction (opts : Options) (event : Event) : bool :=
  negb (falsy (timestamp event))
  && negb (falsy (start_timestamp event))
  && match timestamp event, start_timestamp event with
     | Some ts, Some start =>
         Qlt_bool (maxTransactionDuration opts) (ts - start)
         || Qlt_bool (ts - start) 0
     | _, _ => false
     end.

(** The event processor; [self] is whether the hub still has the
    integration. *)
Definition eventProcessor (self getCurrentHub : bool) (opts : Options)
    (event : Event) : Event * list LogCall :=
  if negb self then (event, [])
  else if negb (Qeq_bool (maxTransactionDuration opts) 0)
          && bool_decide (type_ event = Some "transaction")
          && isOutdatedTransaction opts event
  then
    match contexts event with
    | Some ctx =>
        match JsObject.get "trace" ctx with
        | Some trace =>
            (mkEvent (timestamp event) (start_timestamp event) (type_ event)
               (Some (JsObject.set "trace"
                        (JsObject.set "status" (JsStatus DeadlineExceeded)
                           trace) ctx))
               (Some (JsObject.set "maxTransactionDurationExceeded" "true"
                        (default [] (tags event)))),
             _log opts getCurrentHub)
        | None => (event, _log opts getCurrentHub)
        end
    | None => (event, _log opts getCurrentHub)
    end
  else (event, []).

End BrowserTracing.

(** * Properties *)

(** ** Dictionaries *)

Section JsObjectFacts.
Context {V : Type}.
Implicit Types (o : JsObject.t V) (k : string) (v : V).

Lemma JsObject_get_set_eq k v o : JsObject.get k (JsObject.set k v o) = Some v.
Proof.
  induction o as [|[k' v'] o IH]; simpl.
  - by rewrite String.eqb_refl.
  - destruct (String.eqb k' k) eqn:E; simpl; rewrite E; done.
Qed.

Lemma JsObject_set_set k v o :
  JsObject.set k v (JsObject.set k v o) = JsObject.set k v o.
Proof.
  induction o as [|[k' v'] o IH]; simpl.
  - by rewrite String.eqb_refl.
  - destruct (String.eqb k' k) eqn:E; simpl; rewrite E; [done|].
    by rewrite IH.
Qed.

Lemma JsObject_keys_set k v o k' :
  k' ∈ JsObject.keys (JsObject.set k v o) ↔ k' = k ∨ k' ∈ JsObject.keys o.
Proof.
  unfold JsObject.keys.
  induction o as [|[k0 v0] o IH]; simpl.
  - rewrite list_elem_of_singleton, elem_of_nil. tauto.
  - destruct (String.eqb_spec k0 k) as [->|Hne]; simpl.
    + rewrite !elem_of_cons. tauto.
    + rewrite !elem_of_cons, IH. tauto.
Qed.

Lemma JsObject_keys_delete k o k' :
  k' ∈ JsObject.keys (JsObject.delete k o) ↔ k' ∈ JsObject.keys o ∧ k' ≠ k.
Proof.
  unfold JsObject.keys, JsObject.delete.
  rewrite !list_elem_of_fmap. split.
  - intros ([k1 v1] & -> & Hin). apply list_elem_of_filter in Hin as [Hne Hin].
    split; [|done]. by exists (k1, v1).
  - intros (([k1 v1] & -> & Hin) & Hne). exists (k1, v1). split; [done|].
    by apply list_elem_of_filter.
Qed.

Lemma JsObject_get_None k o : JsObject.get k o = None ↔ k ∉ JsObject.keys o.
Proof.
  unfold JsObject.keys.
  induction o as [|[k0 v0] o IH]; simpl.
  - split; [intros _; apply not_elem_of_nil | done].
  - rewrite not_elem_of_cons.
    destruct (String.eqb_spec k0 k) as [->|Hne]; [split; [done | tauto]|].
    rewrite IH. split; [intros ?; split; [congruence | done] | tauto].
Qed.

Lemma JsObject_delete_absent k o :
  k ∉ JsObject.keys o → JsObject.delete k o = o.
Proof.
  unfold JsObject.keys, JsObject.delete.
  induction o as [|[k0 v0] o IH]; [done|].
  rewrite fmap_cons, not_elem_of_cons. simpl. intros [Hne Hnin].

  rewrite filter_cons_True by (simpl; congruence).
  by rewrite IH.
Qed.

Lemma JsObject_keys_NoDup_set k v o :
  NoDup (JsObject.keys o) → NoDup (JsObject.keys (JsObject.set k v o)).
Proof.
  induction o as [|[k0 v0] o IH]; simpl.
  - intros _. apply NoDup_singleton.
  - rewrite NoDup_cons. intros [Hnin Hnd].
    destruct (String.eqb_spec k0 k) as [->|Hne]; simpl.
    + by apply NoDup_cons.
    + apply NoDup_cons. split; [|by apply IH].
      change (k0 ∉ JsObject.keys (JsObject.set k v o)).
      rewrite JsObject_keys_set. intros [?|?]; [congruence | done].
Qed.

Lemma JsObject_keys_NoDup_delete k o :
  NoDup (JsObject.keys o) → NoDup (JsObject.keys (JsObject.delete k o)).
Proof.
  unfold JsObject.keys, JsObject.delete.
  induction o as [|[k0 v0] o IH]; [done|].
  rewrite fmap_cons, NoDup_cons. simpl. intros [Hnin Hnd].
  destruct (decide (k0 = k)) as [->|Hne].
  - rewrite filter_cons_False by (simpl; tauto). by apply IH.
  - rewrite filter_cons_True by done. rewrite fmap_cons. simpl.
    apply NoDup_cons. split; [|by apply IH].
    intros Hin. apply Hnin.
    change (k0 ∈ JsObject.keys (JsObject.delete k o)) in Hin.
    by apply JsObject_keys_delete in Hin as [? _].
Qed.
End JsObjectFacts.

(** Every entry of a dictionary of flags is [true]. *)
Lemma JsObject_get_true k (o : JsObject.t bool) :
  Forall (λ kv, kv.2 = true) o → k ∈ JsObject.keys o →
  JsObject.get k o = Some true.
Proof.
  unfold JsObject.keys.
  induction o as [|[k0 v0] o IH]; simpl.
  - intros _ H. by apply elem_of_nil in H.
  - rewrite Forall_cons, elem_of_cons. simpl. intros [-> Hall] Hin.
    destruct (String.eqb_spec k0 k) as [->|Hne]; [done|].
    destruct Hin as [->|Hin]; [done | by apply IH].
  Qed.

(** ** Activities *)

Lemma activities_popActivity id now st :
  activities (_popActivity id now st) =
  if truthy (JsObject.get id (activities st))
  then JsObject.delete id (activities st)
  else activities st.
Proof.
  unfold _popActivity.
  destruct (truthy (JsObject.get id (activities st))); simpl;
    match goal with |- context [Nat.eqb ?n 0] => destruct (Nat.eqb n 0) end;
    reflexivity.
Qed.

Lemma popActivity_absent_activities id now st :
  id ∉ JsObject.keys (activities st) →
  activities (_popActivity id now st) = activities st.
Proof.
  intros Hnin. rewrite activities_popActivity.
  apply JsObject_get_None in Hnin. by rewrite Hnin.
Qed.

(** C9. Pushing an identifier that was just pushed changes nothing: the
    second push leaves the whole state as the first one left it, the keys
    after a push are the old keys and the identifier, and one pop after the
    two pushes leaves the identifier out of the activities. *)
Theorem pushActivity_idempotent (id : string) (now : Q) (st : IdleTransaction) :
  _pushActivity id (_pushActivity id st) = _pushActivity id st
  ∧ (∀ k, k ∈ JsObject.keys (activities (_pushActivity id st))
          ↔ k = id ∨ k ∈ JsObject.keys (activities st))
  ∧ id ∉ JsObject.keys
           (activities (_popActivity id now
                          (_pushActivity id (_pushActivity id st)))).
Proof.
  split; [|split].
  - unfold _pushActivity, set_activities; simpl.
    by rewrite JsObject_set_set.
  - intros k. unfold _pushActivity; simpl. apply JsObject_keys_set.
  - rewrite activities_popActivity.
    unfold _pushActivity at 1 2 3; simpl.
    rewrite !JsObject_set_set, JsObject_get_set_eq; simpl.
    rewrite JsObject_keys_delete. tauto.
Qed.

(** ** The finish method of the transaction *)

Lemma iter_fixpoint {A} (f : A → A) (x : A) (k : nat) :
  f x = x → Nat.iter k f x = x.
Proof. intros Hf. induction k as [|k IH]; simpl; [done|]. by rewrite IH. Qed.

(** The pop callback ignores the transaction's own identifier, so the
    wrappers around its [finish] add nothing to the inherited method. *)
Lemma afterFinish_this now st : afterFinish (spanId (base st)) now st = st.
Proof.
  unfold afterFinish, popActivity.
  destruct (spanRecorder st) as [rec|]; [|done].
  destruct (has_popActivity rec); [|done].
  by rewrite String.eqb_refl.
Qed.

Lemma finish_emit e now st : finish e now st = emit st (CallFinish e).
Proof. unfold finish. apply iter_fixpoint. apply (afterFinish_this now (emit st _)). Qed.

(** ** The filter of [_finishIdleTransaction] *)

Lemma deref_store_eq r s s0 st :
  deref st r = Some s0 → deref (store r s st) r = Some s.
Proof.
  destruct r as [|n]; simpl; [done|].
  intros H. apply list_lookup_insert_eq. by eapply lookup_lt_Some.
Qed.

Lemma deref_store_ne r r' s st :
  r ≠ r' → deref (store r s st) r' = deref st r'.
Proof.
  destruct r as [|n], r' as [|n']; simpl; try done.
  intros Hne. apply list_lookup_insert_ne. congruence.
Qed.

Lemma base_store_Child n s st : base (store (Child n) s st) = base st.
Proof. done. Qed.

Lemma closeOpen_idemp endTs root s :
  closeOpen endTs root (closeOpen endTs root s) = closeOpen endTs root s.
Proof.
  unfold closeOpen.
  destruct (String.eqb (spanId s) root) eqn:E; [by rewrite E|].
  destruct (falsy (endTimestamp s)) eqn:F; simpl; rewrite E; [|by rewrite F].
  destruct (Qeq_bool endTs 0); reflexivity.
Qed.

(** The filter leaves everything but the stored spans and the trace as it
    was. *)
Lemma filterSpans_frame endTs rs st :
  let st' := (filterSpans endTs rs st).2 in
  base st' = base st ∧ spanRecorder st' = spanRecorder st
  ∧ _idleTimeout st' = _idleTimeout st ∧ activities st' = activities st
  ∧ _heartbeatTimer st' = _heartbeatTimer st
  ∧ _prevHeartbeatString st' = _prevHeartbeatString st
  ∧ _heartbeatCounter st' = _heartbeatCounter st
  ∧ _finishCallback st' = _finishCallback st
  ∧ timers st' = timers st ∧ nextTimerId st' = nextTimerId st.
Proof.
  revert st. induction rs as [|r rs IH]; intros st; simpl; [done|].
  destruct (deref st r) as [span|] eqn:D; [|apply IH].
  destruct (String.eqb (spanId span) (spanId (base st))) eqn:E.
  - specialize (IH st). destruct (filterSpans endTs rs st); simpl in *. done.
  - match goal with
    | |- context [filterSpans endTs rs ?s] =>
        specialize (IH s); destruct (filterSpans endTs rs s) as [kept st']
    end.
    simpl in *.
    assert (r ≠ This) as Hr.
    { intros ->. simpl in D. injection D as <-. by rewrite String.eqb_refl in E. }
    destruct r as [|n]; [done|].
    destruct (falsy (endTimestamp span)),
      (Qlt_bool (startTimestamp span) endTs); simpl in *; done.
Qed.

Lemma keepRef_store endTs r s s' st r' :
  r ≠ This → deref st r = Some s →
  spanId s' = spanId s → startTimestamp s' = startTimestamp s →
  keepRef endTs (store r s' st) r' = keepRef endTs st r'.
Proof.
  intros Hr D Hid Hstart. unfold keepRef.
  destruct r as [|n]; [done|]. rewrite base_store_Child.
  destruct (decide (Child n = r')) as [<-|Hne].
  - rewrite (deref_store_eq _ _ _ _ D), D. by rewrite Hid, Hstart.
  - by rewrite deref_store_ne.
Qed.

Lemma filterSpans_cons_other endTs r rs span st :
  deref st r = Some span →
  String.eqb (spanId span) (spanId (base st)) = false →
  filterSpans endTs (r :: rs) st =
  let res := filterSpans endTs rs (filterStep endTs r span st) in
  (if Qlt_bool (startTimestamp span) endTs then r :: res.1 else res.1, res.2).
Proof.
  intros D E. simpl. rewrite D, E. unfold filterStep, cancelled.
  destruct (filterSpans endTs rs _) as [kept st']. done.
Qed.

Lemma filterStep_base endTs n span st :
  base (filterStep endTs (Child n) span st) = base st.
Proof.
  unfold filterStep.
  by destruct (falsy (endTimestamp span)), (Qlt_bool (startTimestamp span) endTs).
Qed.

Lemma filterStep_children endTs n span st :
  children st !! n = Some span →
  String.eqb (spanId span) (spanId (base st)) = false →
  ∀ m, children (filterStep endTs (Child n) span st) !! m =
       if decide (m = n)
       then Some (closeOpen endTs (spanId (base st)) span)
       else children st !! m.
Proof.
  intros D E m. unfold filterStep, closeOpen. rewrite E.
  assert (n < length (children st)) by (by eapply lookup_lt_Some).
  destruct (falsy (endTimestamp span)),
    (Qlt_bool (startTimestamp span) endTs); simpl;
    destruct (decide (m = n)) as [->|Hne];
    rewrite ?list_lookup_insert_eq, ?list_lookup_insert_ne by done; done.
Qed.

Lemma filterStep_keepRef endTs n span st r' :
  children st !! n = Some span →
  keepRef endTs (filterStep endTs (Child n) span st) r' = keepRef endTs st r'.
Proof.
  intros D. unfold filterStep.
  destruct (falsy (endTimestamp span)),
    (Qlt_bool (startTimestamp span) endTs);
    try done; apply (keepRef_store endTs (Child n) span); done.
Qed.

(** The references the filter keeps: the spans that carry the identifier of
    the transaction and those that started before the end timestamp. *)
Lemma filterSpans_kept endTs rs st :
  (filterSpans endTs rs st).1 = List.filter (keepRef endTs st) rs.
Proof.
  revert st. induction rs as [|r rs IH]; intros st; [done|].
  destruct (deref st r) as [span|] eqn:D.
  - destruct (String.eqb (spanId span) (spanId (base st))) eqn:E.
    + simpl. rewrite D, E. specialize (IH st).
      destruct (filterSpans endTs rs st) as [kept st']. simpl in *.
      assert (keepRef endTs st r = true) as ->
        by (unfold keepRef; by rewrite D, E).
      by rewrite IH.
    + rewrite (filterSpans_cons_other _ _ _ _ _ D E). simpl.
      assert (keepRef endTs st r = Qlt_bool (startTimestamp span) endTs) as ->
        by (unfold keepRef; by rewrite D, E).
      assert (∃ n, r = Child n) as [n ->].
      { destruct r as [|n]; [|by eexists]. simpl in D. injection D as <-.
        by rewrite String.eqb_refl in E. }
      rewrite IH.
      rewrite (List.filter_ext _ (keepRef endTs st))
        by (intros r'; by apply filterStep_keepRef).
      done.
  - simpl. rewrite D.
    assert (keepRef endTs st r = false) as -> by (unfold keepRef; by rewrite D).
    apply IH.
Qed.

(** The spans after the filter: each span the sequence refers to has been
    closed if it was open and is not the transaction; no other span has been
    touched. *)
Lemma filterSpans_children endTs rs st n :
  children (filterSpans endTs rs st).2 !! n =
  if decide (Child n ∈ rs)
  then closeOpen endTs (spanId (base st)) <$> children st !! n
  else children st !! n.
Proof.
  revert st. induction rs as [|r rs IH]; intros st.
  - simpl. destruct (decide (Child n ∈ [])) as [H|]; [by apply elem_of_nil in H | done].
  - destruct (deref st r) as [span|] eqn:D.
    + destruct (String.eqb (spanId span) (spanId (base st))) eqn:E.
      * simpl. rewrite D, E. specialize (IH st).
        destruct (filterSpans endTs rs st) as [kept st']. simpl in *.
        rewrite IH.
        destruct (decide (Child n ∈ rs)) as [Hin|Hnin].
        -- rewrite decide_True; [done | by right].
        -- destruct (decide (r = Child n)) as [->|Hne].
           ++ rewrite decide_True by left. simpl in D. rewrite D. simpl.
              unfold closeOpen. by rewrite E.
           ++ rewrite decide_False; [done|].
              rewrite elem_of_cons. intros [?|?]; congruence.
      * rewrite (filterSpans_cons_other _ _ _ _ _ D E). simpl.
        assert (∃ m, r = Child m) as [m ->].
        { destruct r as [|m]; [|by eexists]. simpl in D. injection D as <-.
          by rewrite String.eqb_refl in E. }
        simpl in D. rewrite IH, filterStep_base.
        rewrite (filterStep_children _ _ _ _ D E).
        destruct (decide (n = m)) as [->|Hne].
        -- rewrite (decide_True (P := Child m ∈ Child m :: rs)) by left.
           rewrite D. simpl. rewrite closeOpen_idemp.
           by destruct (decide (Child m ∈ rs)).
        -- destruct (decide (Child n ∈ rs)) as [Hin|Hnin].
           ++ rewrite decide_True; [done | by right].
           ++ rewrite decide_False; [done|].
              rewrite elem_of_cons. intros [?|?]; congruence.
    + simpl. rewrite D. rewrite IH.
      destruct (decide (Child n ∈ rs)) as [Hin|Hnin].
      * rewrite decide_True; [done | by right].
      * destruct (decide (r = Child n)) as [->|Hne].
        -- simpl in D. rewrite D. by destruct (decide (Child n ∈ Child n :: rs)).
        -- rewrite decide_False; [done|].
           rewrite elem_of_cons. intros [?|?]; congruence.
Qed.

Lemma filterSpans_trace (p : Event → bool) endTs rs st :
  (∀ r, p (LogCancellingSpan r) = false) →
  (∀ r, p (LogDiscardingSpan r) = false) →
  List.filter p (trace (filterSpans endTs rs st).2) = List.filter p (trace st).
Proof.
  intros Hc Hd. revert st. induction rs as [|r rs IH]; intros st; [done|].
  destruct (deref st r) as [span|] eqn:D.
  - destruct (String.eqb (spanId span) (spanId (base st))) eqn:E.
    + simpl. rewrite D, E. specialize (IH st).
      by destruct (filterSpans endTs rs st).
    + rewrite (filterSpans_cons_other _ _ _ _ _ D E). simpl. rewrite IH.
      unfold filterStep.
      destruct (falsy (endTimestamp span)),
        (Qlt_bool (startTimestamp span) endTs), r; simpl;
        rewrite ?List.filter_app; simpl; rewrite ?Hc, ?Hd, ?app_nil_r; done.
  - simpl. rewrite D. apply IH.
Qed.

(** ** [_finishIdleTransaction] with a recorder attached *)

Lemma finishIdleTransaction_unfold endTs now st rec :
  spanRecorder st = Some rec →
  _finishIdleTransaction endTs now st =
  let st1 :=
    match _finishCallback st with
    | Some cb => emit st (CallFinishCallback cb)
    | None => st
    end in
  let st2 := (filterSpans endTs (spans rec) st1).2 in
  emit (emit (set_spanRecorder st2
                (Some (set_spans (List.filter (keepRef endTs st) (spans rec)) rec)))
             LogFlushing)
       (CallFinish None).
Proof.
  intros Hrec. unfold _finishIdleTransaction. rewrite Hrec. simpl.
  pose proof (filterSpans_kept endTs (spans rec)
    match _finishCallback st with
    | Some cb => emit st (CallFinishCallback cb)
    | None => st
    end) as Hk.
  destruct (filterSpans endTs (spans rec) _) as [kept st2]. simpl in *.
  rewrite finish_emit, Hk. by destruct (_finishCallback st).
Qed.

Lemma finishIdleTransaction_recorder endTs now st rec :
  spanRecorder st = Some rec →
  spanRecorder (_finishIdleTransaction endTs now st) =
  Some (set_spans (List.filter (keepRef endTs st) (spans rec)) rec).
Proof. intros Hrec. by rewrite (finishIdleTransaction_unfold _ _ _ _ Hrec). Qed.

Lemma finishIdleTransaction_children endTs now st rec n :
  spanRecorder st = Some rec →
  children (_finishIdleTransaction endTs now st) !! n =
  if decide (Child n ∈ spans rec)
  then closeOpen endTs (spanId (base st)) <$> children st !! n
  else children st !! n.
Proof.
  intros Hrec. rewrite (finishIdleTransaction_unfold _ _ _ _ Hrec). simpl.
  rewrite filterSpans_children. by destruct (_finishCallback st).
Qed.

Lemma finishIdleTransaction_frame endTs now st :
  let st' := _finishIdleTransaction endTs now st in
  base st' = base st ∧ activities st' = activities st
  ∧ timers st' = timers st ∧ nextTimerId st' = nextTimerId st
  ∧ _heartbeatTimer st' = _heartbeatTimer st
  ∧ _prevHeartbeatString st' = _prevHeartbeatString st
  ∧ _heartbeatCounter st' = _heartbeatCounter st
  ∧ _finishCallback st' = _finishCallback st
  ∧ _idleTimeout st' = _idleTimeout st.
Proof.
  destruct (spanRecorder st) as [rec|] eqn:Hrec; simpl.
  - rewrite (finishIdleTransaction_unfold _ _ _ _ Hrec). simpl.
    match goal with
    | |- context [filterSpans endTs (spans rec) ?s] =>
        pose proof (filterSpans_frame endTs (spans rec) s) as F
    end.
    destruct F as (F1 & F2 & F3 & F4 & F5 & F6 & F7 & F8 & F9 & F10).
    destruct (_finishCallback st) eqn:Hcb; simpl in *; repeat split; congruence.
  - unfold _finishIdleTransaction. by rewrite Hrec.
Qed.

Lemma finishIdleTransaction_calls endTs now st :
  is_Some (spanRecorder st) →
  let st' := _finishIdleTransaction endTs now st in
  finishCalls st' = S (finishCalls st)
  ∧ callbackCalls st' =
    callbackCalls st + match _finishCallback st with Some _ => 1 | None => 0 end.
Proof.
  intros [rec Hrec]. simpl.
  rewrite (finishIdleTransaction_unfold _ _ _ _ Hrec).
  unfold finishCalls, callbackCalls. simpl.
  rewrite !List.filter_app. simpl. rewrite !app_nil_r, !length_app. simpl.
  rewrite !filterSpans_trace by done.
  destruct (_finishCallback st); simpl;
    rewrite ?List.filter_app, ?length_app; simpl; lia.
Qed.

(** C8. Without a span recorder the finalisation only logs that there is no
    active idle transaction: every field of the transaction, the stored
    spans and the pending timers are as before, the pre-finish callback is
    not invoked and the inherited finish path is not entered. *)
Theorem finishIdleTransaction_without_recorder
    (endTs now : Q) (st : IdleTransaction) :
  spanRecorder st = None →
  let st' := _finishIdleTransaction endTs now st in
  st' = emit st LogNoActive
  ∧ trace st' = trace st ++ [LogNoActive]
  ∧ callbackCalls st' = callbackCalls st
  ∧ finishCalls st' = finishCalls st
  ∧ base st' = base st ∧ spanRecorder st' = None
  ∧ activities st' = activities st ∧ children st' = children st
  ∧ timers st' = timers st
  ∧ _heartbeatCounter st' = _heartbeatCounter st
  ∧ _prevHeartbeatString st' = _prevHeartbeatString st.
Proof.
  intros Hrec. simpl. unfold _finishIdleTransaction. rewrite Hrec.
  unfold callbackCalls, finishCalls. simpl.
  rewrite !List.filter_app. simpl. rewrite !app_nil_r. done.
Qed.

(** A transaction that has just been constructed has no recorder. *)
Lemma finishIdleTransaction_without_recorder_witness :
  spanRecorder (new_IdleTransaction "root" true (Some 1000%Q) 0%Q) = None
  ∧ _finishIdleTransaction 1%Q 1%Q
      (new_IdleTransaction "root" true (Some 1000%Q) 0%Q) =
    emit (new_IdleTransaction "root" true (Some 1000%Q) 0%Q) LogNoActive.
Proof.
  split; [reflexivity|].
  apply (finishIdleTransaction_without_recorder 1%Q 1%Q
           (new_IdleTransaction "root" true (Some 1000%Q) 0%Q)).
  reflexivity.
Defined.

(** ** Finalising more than once *)

Lemma finishIdleTransactions_calls calls st :
  is_Some (spanRecorder st) →
  let st' := finishIdleTransactions calls st in
  is_Some (spanRecorder st')
  ∧ _finishCallback st' = _finishCallback st
  ∧ finishCalls st' = finishCalls st + length calls
  ∧ callbackCalls st' =
    callbackCalls st
    + match _finishCallback st with Some _ => length calls | None => 0 end.
Proof.
  revert st. induction calls as [|[e now] calls IH]; intros st Hrec; simpl.
  - destruct (_finishCallback st); repeat split; (done || lia).
  - pose proof (finishIdleTransaction_calls e now st Hrec) as [Hf Hc].
    pose proof (finishIdleTransaction_frame e now st)
      as (_ & _ & _ & _ & _ & _ & _ & Hcb & _).
    destruct Hrec as [rec Hrec].
    pose proof (finishIdleTransaction_recorder e now st rec Hrec) as Hrec'.
    destruct (IH (_finishIdleTransaction e now st)) as (I1 & I2 & I3 & I4);
      [by eexists|].
    unfold finishIdleTransactions in *. simpl in *.
    rewrite I2, I3, I4, Hcb, Hf, Hc.
    destruct (_finishCallback st); repeat split; (done || lia).
Qed.

(** C1, counterexample.  Two delayed finishes are pending; the first one to
    run finishes the transaction, and the second one then invokes the
    pre-finish callback and the inherited finish path again.  Likewise after
    an explicit [finish]: the delayed finish that was pending runs the
    callback and enters the finish path a second time. *)
Lemma finalize_runs_again_counterexample :
  (∃ st1 st2,
      fire 2 3%Q idle_armed_twice = Some st1
      ∧ fire 3 4%Q st1 = Some st2
      ∧ finishCalls st1 = 1 ∧ callbackCalls st1 = 1
      ∧ finishCalls st2 = 2 ∧ callbackCalls st2 = 2)
  ∧ finishCalls (finish (Some (5 # 2)%Q) (5 # 2)%Q idle_armed) = 1
  ∧ ∃ st3,
      fire 2 3%Q (finish (Some (5 # 2)%Q) (5 # 2)%Q idle_armed) = Some st3
      ∧ finishCalls st3 = 2 ∧ callbackCalls st3 = 1.
Proof.
  split; [|split; [reflexivity|]].
  - eexists _, _. split; [vm_compute; reflexivity|].
    split; [vm_compute; reflexivity|]. vm_compute. done.
  - eexists. split; [vm_compute; reflexivity|]. vm_compute. done.
Qed.

(** C1, as the code has it.  There is no finished state that later runs
    would test: every run of the finalisation with a span recorder attached
    invokes the pre-finish callback when one is registered, enters the
    inherited finish path once and leaves the recorder attached; so any
    number of runs in a row enters the finish path that many times, and one
    more run filters the sequence of the recorder again, against its own end
    timestamp. *)
Theorem finalize_runs_every_time
    (calls : list (Q * Q)) (st : IdleTransaction) :
  is_Some (spanRecorder st) →
  let st' := finishIdleTransactions calls st in
  is_Some (spanRecorder st')
  ∧ finishCalls st' = finishCalls st + length calls
  ∧ callbackCalls st' =
    callbackCalls st
    + match _finishCallback st with Some _ => length calls | None => 0 end
  ∧ ∀ endTs now rec',
      spanRecorder st' = Some rec' →
      spanRecorder (_finishIdleTransaction endTs now st') =
      Some (set_spans (List.filter (keepRef endTs st') (spans rec')) rec').
Proof.
  intros Hrec.
  destruct (finishIdleTransactions_calls calls st Hrec) as (H1 & _ & H3 & H4).
  repeat (split; [done|]).
  intros endTs now rec' Hrec'. by apply finishIdleTransaction_recorder.
Qed.

(** Two runs in a row on the attached transaction. *)
Lemma finalize_runs_every_time_witness :
  is_Some (spanRecorder started)
  ∧ finishCalls (finishIdleTransactions [(3%Q, 3%Q); (4%Q, 4%Q)] started) = 2.
Proof.
  assert (is_Some (spanRecorder started)) as H by (vm_compute; eauto).
  split; [exact H|].
  exact (proj1 (proj2 (finalize_runs_every_time
                         [(3%Q, 3%Q); (4%Q, 4%Q)] started H))).
Defined.

(** ** The heartbeat *)

Lemma string_app_nil_r (s : string) : s +:+ EmptyString = s.
Proof.
  induction s as [|a s IH]; [done|].
  change (String a (s +:+ EmptyString) = String a s). by f_equal.
Qed.

Lemma string_app_assoc (s1 s2 s3 : string) :
  (s1 +:+ s2) +:+ s3 = s1 +:+ (s2 +:+ s3).
Proof.
  induction s1 as [|a s1 IH]; [done|].
  change (String a ((s1 +:+ s2) +:+ s3) = String a (s1 +:+ (s2 +:+ s3))).
  by f_equal.
Qed.

Lemma fold_left_append (ks : list string) (k : string) :
  fold_left String.append ks k = k +:+ String.concat EmptyString ks.
Proof.
  revert k. induction ks as [|k' ks IH]; intros k; simpl.
  - by rewrite string_app_nil_r.
  - rewrite IH, string_app_assoc. f_equal.
    destruct ks as [|k'' ks]; simpl. 1: by rewrite string_app_nil_r. done.
Qed.

(** The heartbeat string is the concatenation of the keys, in their order
    and with nothing between them. *)
Lemma heartbeatString_concat (keys : list string) :
  heartbeatString keys = String.concat EmptyString keys.
Proof.
  destruct keys as [|k ks]; simpl; [done|].
  rewrite fold_left_append. by destruct ks; simpl; rewrite ?string_app_nil_r.
Qed.

(** C10. The heartbeat string does not determine the activities: ["a"],
    ["bc"] and ["ab"], ["c"] give the same string.  In the run below the
    open activities at the second beat are not those of the first beat, and
    the beat still counts as unchanged: the counter goes from 1 to 2. *)
Theorem heartbeatString_not_injective :
  (∃ a1 a2 : JsObject.t bool,
      ¬ (∀ k, k ∈ JsObject.keys a1 ↔ k ∈ JsObject.keys a2)
      ∧ heartbeatString (JsObject.keys a1) = heartbeatString (JsObject.keys a2))
  ∧ ∃ st1 st2,
      fire 1 5%Q before_first_beat = Some st1
      ∧ fire 2 10%Q (before_second_beat st1) = Some st2
      ∧ JsObject.keys (activities st1) = ["a"; "bc"]
      ∧ JsObject.keys (activities (before_second_beat st1)) = ["ab"; "c"]
      ∧ _heartbeatCounter st1 = 1
      ∧ _heartbeatCounter st2 = 2.
Proof.
  split.
  - exists [("a", true); ("bc", true)], [("ab", true); ("c", true)].
    split; [|reflexivity].
    intros H. specialize (H "a"). simpl in H.
    assert ("a" ∈ ["ab"; "c"]) as Hin by (apply H; left).
    apply elem_of_cons in Hin as [?|Hin]; [done|].
    apply list_elem_of_singleton in Hin. done.
  - eexists _, _. split; [vm_compute; reflexivity|].
    split; [vm_compute; reflexivity|]. vm_compute. done.
Qed.

(** [_beat], with the two ways it ends side by side. *)
Lemma beat_unfold (now : Q) (st : IdleTransaction) :
  let hb := String.concat EmptyString (JsObject.keys (activities st)) in
  let counter :=
    if bool_decide (_prevHeartbeatString st = Some hb)
    then S (_heartbeatCounter st) else 1 in
  let st2 := set_heartbeat (clearTimeout (_heartbeatTimer st) st) (Some hb) counter in
  _beat now st =
  if Nat.leb 3 counter
  then _finishIdleTransaction now now
         (set_base (emit st2 LogHeartbeatSafeguard)
            (setTag "heartbeat" "failed"
               (setStatus DeadlineExceeded (base st))))
  else _pingHeartbeat now st2.
Proof.
  intros hb counter st2. subst st2 counter hb. unfold _beat.
  rewrite heartbeatString_concat. simpl.
  set (hb := String.concat EmptyString (JsObject.keys (activities st))).
  destruct (decide (Some hb = _prevHeartbeatString st)) as [E|E].
  - by rewrite bool_decide_eq_true_2.
  - by rewrite bool_decide_eq_false_2.
Qed.

(** C2. One heartbeat tick.  The string compared is the concatenation of
    the keys of the activities.  When it is the string of the previous tick
    the counter goes up by one, otherwise it becomes 1, and the string is
    remembered.  When the counter is 3 or more (from a counter of at most 2
    it is then exactly 3) the transaction gets the status DeadlineExceeded
    and the tag heartbeat=failed, the finalisation runs with the current
    time as its end timestamp, and no new heartbeat is armed.  Otherwise
    nothing is finalised and a new heartbeat is armed 5000 ms from now. *)
Theorem beat_tick (now : Q) (st : IdleTransaction) :
  let hb := String.concat EmptyString (JsObject.keys (activities st)) in
  let counter :=
    if bool_decide (_prevHeartbeatString st = Some hb)
    then S (_heartbeatCounter st) else 1 in
  let cleared := filter (λ t, timerId t ≠ _heartbeatTimer st) (timers st) in
  let st2 := set_heartbeat (clearTimeout (_heartbeatTimer st) st) (Some hb) counter in
  let st' := _beat now st in
  _prevHeartbeatString st' = Some hb
  ∧ _heartbeatCounter st' = counter
  ∧ (_heartbeatCounter st ≤ 2 → 3 ≤ counter → counter = 3)
  ∧ (3 ≤ counter →
       st' = _finishIdleTransaction now now
               (set_base (emit st2 LogHeartbeatSafeguard)
                  (setTag "heartbeat" "failed"
                     (setStatus DeadlineExceeded (base st))))
       ∧ status (base st') = Some DeadlineExceeded
       ∧ JsObject.get "heartbeat" (tags (base st')) = Some "failed"
       ∧ timers st' = cleared
       ∧ (is_Some (spanRecorder st) → finishCalls st' = S (finishCalls st)))
  ∧ (counter < 3 →
       st' = _pingHeartbeat now st2
       ∧ timers st' = cleared ++ [mkTimer (nextTimerId st) now 5000 BeatCallback]
       ∧ _heartbeatTimer st' = nextTimerId st
       ∧ base st' = base st
       ∧ trace st' = trace st).
Proof.
  intros hb counter cleared st2 st'.
  set (st5 := set_base (emit st2 LogHeartbeatSafeguard)
                (setTag "heartbeat" "failed"
                   (setStatus DeadlineExceeded (base st)))).
  assert (st' = if Nat.leb 3 counter
                then _finishIdleTransaction now now st5
                else _pingHeartbeat now st2) as Hst'
    by apply beat_unfold.
  assert (_heartbeatCounter st ≤ 2 → 3 ≤ counter → counter = 3) as Hreach.
  { subst counter. destruct (bool_decide _); lia. }
  pose proof (finishIdleTransaction_frame now now st5)
    as (F1 & F2 & F3 & F4 & F5 & F6 & F7 & F8 & F9).
  pose proof (finishIdleTransaction_calls now now st5) as C.
  destruct (Nat.leb 3 counter) eqn:E; rewrite Hst'.
  - apply Nat.leb_le in E.
    rewrite F1, F3, F6, F7.
    split; [done|]. split; [done|]. split; [done|].
    split; [|intros; lia]. intros _.
    split; [done|]. split; [done|].
    split; [apply JsObject_get_set_eq|]. split; [done|].
    intros Hrec. destruct (C Hrec) as [-> _].
    unfold finishCalls. simpl. rewrite List.filter_app. simpl.
    by rewrite app_nil_r.
  - apply Nat.leb_gt in E.
    split; [done|]. split; [done|]. split; [done|].
    split; [intros; lia | done].
Qed.

(** ** Popping an activity *)

Lemma popActivity_frame id now st :
  let st' := _popActivity id now st in
  base st' = base st ∧ spanRecorder st' = spanRecorder st
  ∧ children st' = children st ∧ trace st' = trace st
  ∧ _idleTimeout st' = _idleTimeout st
  ∧ _finishCallback st' = _finishCallback st
  ∧ _heartbeatTimer st' = _heartbeatTimer st
  ∧ _prevHeartbeatString st' = _prevHeartbeatString st
  ∧ _heartbeatCounter st' = _heartbeatCounter st.
Proof.
  unfold _popActivity.
  destruct (truthy (JsObject.get id (activities st))); simpl;
    match goal with |- context [Nat.eqb ?n 0] => destruct (Nat.eqb n 0) end;
    done.
Qed.

Lemma popActivity_timers id now st :
  timers (_popActivity id now st) =
  match activities (_popActivity id now st) with
  | [] =>
      timers st
      ++ [mkTimer (nextTimerId st) now (_idleTimeout st)
            (FinishIdleCallback (now + _idleTimeout st / 1000)%Q)]
  | _ => timers st
  end
  ∧ nextTimerId (_popActivity id now st) =
    match activities (_popActivity id now st) with
    | [] => S (nextTimerId st)
    | _ => nextTimerId st
    end.
Proof.
  rewrite activities_popActivity. unfold _popActivity.
  destruct (truthy (JsObject.get id (activities st))); simpl.
  - by destruct (JsObject.delete id (activities st)).
  - by destruct (activities st).
Qed.

Lemma list_find_fresh (id : nat) (l : list Timer) (t : Timer) :
  (∀ t', t' ∈ l → timerId t' ≠ id) → timerId t = id →
  list_find (λ t', timerId t' = id) (l ++ [t]) = Some (length l, t).
Proof.
  intros Hl Ht. apply list_find_Some. split; [|split].
  - by apply list_lookup_middle.
  - done.
  - intros j y Hj Hlt. rewrite lookup_app_l in Hj by done.
    apply Hl. by eapply list_elem_of_lookup_2.
Qed.

Lemma fire_found id i t now st :
  list_find (λ t', timerId t' = id) (timers st) = Some (i, t) →
  fire id now st =
  if Qle_bool (due t) now
  then Some (runCallback (callback t) now (unschedule id st))
  else None.
Proof. intros H. unfold fire. by rewrite H. Qed.




(** C7, counterexample.  The first child has been finished, so ["a"] is no
    longer an activity and no activity is left.  Popping ["a"] again, which
    is what a second call of the child's [finish] does, arms one more
    delayed finish, and the finalisation runs when the host fires it. *)
Lemma pop_unknown_arms_finish_counterexample :
  ("a" ∉ JsObject.keys (activities idle_armed))
  ∧ length (timers idle_armed) = 2
  ∧ length (timers (_popActivity "a" (5 # 2)%Q idle_armed)) = 3
  ∧ timers finished_twice = timers (_popActivity "a" (5 # 2)%Q idle_armed)
  ∧ finishCalls (_popActivity "a" (5 # 2)%Q idle_armed) = 0
  ∧ ∃ st', fire 3 4%Q (_popActivity "a" (5 # 2)%Q idle_armed) = Some st'
           ∧ finishCalls st' = 1.
Proof.
  split.
  { vm_compute. apply not_elem_of_nil. }
  repeat (split; [reflexivity|]).
  eexists. split; [vm_compute; reflexivity|]. reflexivity.
Qed.

(** C7, as the code has it.  Popping an identifier that is not an activity
    leaves the activities, the spans, the recorder and the trace as they
    were.  When some activity is open the whole state is unchanged; when
    none is, the pop arms a delayed finish as any pop that finds the
    activities empty does. *)
Theorem popActivity_unknown (id : string) (now : Q) (st : IdleTransaction) :
  id ∉ JsObject.keys (activities st) →
  let st' := _popActivity id now st in
  activities st' = activities st
  ∧ trace st' = trace st
  ∧ children st' = children st
  ∧ spanRecorder st' = spanRecorder st
  ∧ base st' = base st
  ∧ (activities st ≠ [] → st' = st)
  ∧ (activities st = [] →
       timers st' =
       timers st
       ++ [mkTimer (nextTimerId st) now (_idleTimeout st)
             (FinishIdleCallback (now + _idleTimeout st / 1000)%Q)]).
Proof.
  intros Hnin st'.
  assert (activities st' = activities st) as Hact
    by by apply popActivity_absent_activities.
  pose proof (popActivity_frame id now st) as (Hb & Hr & Hc & Ht & _).
  destruct (popActivity_timers id now st) as [Htm _].
  fold st' in Htm. rewrite Hact in Htm.
  repeat (split; [done|]).
  split.
  - intros Hne. subst st'. unfold _popActivity.
    apply JsObject_get_None in Hnin. rewrite Hnin. simpl.
    by destruct (activities st).
  - intros Hem. by rewrite Hem in Htm.
Qed.

(** An unknown identifier is popped while ["b"] is an activity. *)
Lemma popActivity_unknown_witness :
  ("x" ∉ JsObject.keys (activities resumed))
  ∧ _popActivity "x" 3%Q resumed = resumed.
Proof.
  assert ("x" ∉ JsObject.keys (activities resumed)) as H.
  { vm_compute. intros Hin. apply list_elem_of_singleton in Hin. done. }
  split; [exact H|].
  apply (popActivity_unknown "x" 3%Q resumed H). vm_compute. done.
Defined.

(** ** Starting a child *)

Lemma pushActivity_frame id st :
  let st' := pushActivity id st in
  base st' = base st ∧ spanRecorder st' = spanRecorder st
  ∧ children st' = children st ∧ trace st' = trace st
  ∧ timers st' = timers st ∧ nextTimerId st' = nextTimerId st
  ∧ _idleTimeout st' = _idleTimeout st
  ∧ _finishCallback st' = _finishCallback st.
Proof. unfold pushActivity. by destruct (String.eqb id (spanId (base st))). Qed.

Lemma startChild_frame id now st :
  let st' := (startChild id now st).2 in
  base st' = base st
  ∧ trace st' = trace st
  ∧ timers st' = timers st ∧ nextTimerId st' = nextTimerId st
  ∧ _finishCallback st' = _finishCallback st
  ∧ (is_Some (spanRecorder st) → is_Some (spanRecorder st')).
Proof.
  unfold startChild, add. simpl.
  destruct (spanRecorder st) as [rec|] eqn:Hrec; simpl.
  - rewrite lookup_app_r, Nat.sub_diag by done. simpl.
    destruct (has_pushActivity rec).
    + match goal with
      | |- context [pushActivity id ?s] =>
          pose proof (pushActivity_frame id s)
            as (-> & -> & _ & -> & -> & -> & _ & ->)
      end.
      simpl. repeat split; eauto.
    + simpl. repeat split; eauto.
  - repeat split; try done; by intros [? ?].
Qed.

Lemma startChild_activities id now st rec :
  spanRecorder st = Some rec → has_pushActivity rec = true →
  id ≠ spanId (base st) →
  activities (startChild id now st).2 = JsObject.set id true (activities st).
Proof.
  intros Hrec Hpush Hne. unfold startChild, add. simpl. rewrite Hrec.
  rewrite lookup_app_r, Nat.sub_diag by done. simpl. rewrite Hpush.
  unfold pushActivity. simpl.
  by apply String.eqb_neq in Hne as ->.
Qed.

(** C4, counterexample.  The delayed finish armed when the first child
    finished is still pending after the second child has been started; the
    host runs it when it is due, at 3, while ["b"] is an activity and its
    span is open: the finish path is entered and the span of ["b"] is
    cancelled. *)
Lemma idle_timer_fires_despite_new_activity_counterexample :
  timers resumed = timers idle_armed
  ∧ "b" ∈ JsObject.keys (activities resumed)
  ∧ children resumed !! 1 = Some (mkSpan "b" (5 # 2)%Q None None [] 1)
  ∧ finishCalls resumed = 0
  ∧ ∃ st', fire 2 3%Q resumed = Some st'
           ∧ finishCalls st' = 1
           ∧ "b" ∈ JsObject.keys (activities st')
           ∧ status <$> children st' !! 1 = Some (Some Cancelled).
Proof.
  split; [reflexivity|]. split; [vm_compute; left|].
  split; [reflexivity|]. split; [reflexivity|].
  eexists. split; [vm_compute; reflexivity|].
  split; [reflexivity|]. split; [vm_compute; left | reflexivity].
Qed.

(** C4, as the code has it.  Starting a child neither cancels nor re-arms a
    pending delayed finish.  When the host runs the timer, at or after the
    time it is due, the finalisation runs with the end timestamp the timer
    carries, and the inherited finish path is entered, although the new
    child is an activity before and after. *)
Theorem idle_timer_survives_push
    (id : string) (now now' e : Q) (tid i : nat) (t : Timer)
    (rec : IdleTransactionSpanRecorder) (st : IdleTransaction) :
  spanRecorder st = Some rec →
  has_pushActivity rec = true →
  id ≠ spanId (base st) →
  list_find (λ t', timerId t' = tid) (timers st) = Some (i, t) →
  callback t = FinishIdleCallback e →
  (due t <= now')%Q →
  let st1 := (startChild id now st).2 in
  timers st1 = timers st
  ∧ id ∈ JsObject.keys (activities st1)
  ∧ ∃ st2, fire tid now' st1 = Some st2
           ∧ st2 = _finishIdleTransaction e now' (unschedule tid st1)
           ∧ finishCalls st2 = S (finishCalls st1)
           ∧ id ∈ JsObject.keys (activities st2).
Proof.
  intros Hrec Hpush Hne Hfind Hcb Hdue st1.
  pose proof (startChild_frame id now st) as (Hb & Htr & Htm & Hn & _ & Hsome).
  fold st1 in Hb, Htr, Htm, Hn, Hsome.
  assert (id ∈ JsObject.keys (activities st1)) as Hin.
  { subst st1. rewrite (startChild_activities _ _ _ rec) by done.
    apply JsObject_keys_set. by left. }
  split; [done|]. split; [done|].
  rewrite <-Htm in Hfind.
  rewrite (fire_found _ _ _ _ _ Hfind), Hcb.
  apply Qle_bool_iff in Hdue as ->. simpl.
  eexists. split; [reflexivity|]. split; [reflexivity|].
  pose proof (finishIdleTransaction_calls e now' (unschedule tid st1)) as C.
  pose proof (finishIdleTransaction_frame e now' (unschedule tid st1))
    as (_ & Hact & _).
  split.
  - apply C. simpl. apply Hsome. by eexists.
  - by rewrite Hact.
Qed.

(** The delayed finish of the scenario above, with the second child started. *)
Lemma idle_timer_survives_push_witness :
  ∃ st2, fire 2 3%Q (startChild "b" (5 # 2)%Q idle_armed).2 = Some st2
         ∧ finishCalls st2 = S (finishCalls (startChild "b" (5 # 2)%Q idle_armed).2)
         ∧ "b" ∈ JsObject.keys (activities st2).
Proof.
  destruct (idle_timer_survives_push "b" (5 # 2)%Q 3%Q (2 + 1000 / 1000)%Q 2 1
              (mkTimer 2 2%Q 1000%Q (FinishIdleCallback (2 + 1000 / 1000)%Q))
              (mkRecorder 10 [This; Child 0] true true) idle_armed)
    as (_ & _ & st2 & H1 & _ & H3 & H4).
  - reflexivity.
  - reflexivity.
  - vm_compute. discriminate.
  - reflexivity.
  - reflexivity.
  - vm_compute. discriminate.
  - exists st2. auto.
Defined.

(** ** What the finalisation leaves in the recorder *)

Lemma Qlt_bool_iff (x y : Q) : Qlt_bool x y = true ↔ (x < y)%Q.
Proof.
  unfold Qlt_bool. rewrite negb_true_iff. split.
  - intros H. apply Qnot_le_lt. intros Hle.
    apply Qle_bool_iff in Hle. congruence.
  - intros Hlt. destruct (Qle_bool y x) eqn:E; [|done].
    apply Qle_bool_iff in E. by apply Qlt_not_le in Hlt.
Qed.

Lemma elem_of_List_filter {A} (f : A → bool) (l : list A) (x : A) :
  x ∈ List.filter f l ↔ x ∈ l ∧ f x = true.
Proof. rewrite !list_elem_of_In. apply List.filter_In. Qed.

(** C6, counterexample.  The host runs the delayed finish late, at 6; its
    end timestamp is 3.  The child started at 5 is open when the
    finalisation runs, and it is not in the recorder afterwards. *)
Lemma open_span_dropped_counterexample :
  children late_child !! 1 = Some (mkSpan "c" 5%Q None None [] 1)
  ∧ spans <$> spanRecorder late_child = Some [This; Child 0; Child 1]
  ∧ ∃ st', fire 2 6%Q late_child = Some st'
           ∧ st' = _finishIdleTransaction (2 + 1000 / 1000)%Q 6%Q
                     (unschedule 2 late_child)
           ∧ spans <$> spanRecorder st' = Some [This; Child 0].
Proof.
  split; [reflexivity|]. split; [reflexivity|].
  eexists. split; [vm_compute; reflexivity|].
  split; reflexivity.
Qed.

(** C6, as the code has it.  After a finalisation with end timestamp
    [endTs] on a transaction with a recorder: the transaction itself stays
    in the sequence if it was in it; every other span of the sequence that
    was open and started before [endTs] is still in the sequence, closed at
    [endTs] with status Cancelled; no span that started at or after [endTs]
    is in the sequence, unless it carries the identifier of the
    transaction; and nothing is added to the sequence. *)
Theorem finalize_prunes
    (endTs now : Q) (rec : IdleTransactionSpanRecorder) (st : IdleTransaction) :
  spanRecorder st = Some rec →
  let st' := _finishIdleTransaction endTs now st in
  ∃ rec',
    spanRecorder st' = Some rec'
    ∧ (This ∈ spans rec → This ∈ spans rec')
    ∧ (∀ n s,
         Child n ∈ spans rec → children st !! n = Some s →
         spanId s ≠ spanId (base st) →
         falsy (endTimestamp s) = true →
         (startTimestamp s < endTs)%Q →
         Child n ∈ spans rec'
         ∧ ∃ s', children st' !! n = Some s'
                 ∧ endTimestamp s' = Some endTs
                 ∧ status s' = Some Cancelled
                 ∧ spanId s' = spanId s
                 ∧ startTimestamp s' = startTimestamp s)
    ∧ (∀ n s,
         children st !! n = Some s →
         spanId s ≠ spanId (base st) →
         (endTs <= startTimestamp s)%Q →
         Child n ∉ spans rec')
    ∧ (∀ r, r ∈ spans rec' → r ∈ spans rec).
Proof.
  intros Hrec st'. eexists. split.
  { apply (finishIdleTransaction_recorder _ _ _ _ Hrec). }
  simpl. split; [|split; [|split]].
  - intros Hin. apply elem_of_List_filter. split; [done|].
    unfold keepRef. simpl. by rewrite String.eqb_refl.
  - intros n s Hin Hs Hid Hopen Hlt. split.
    + apply elem_of_List_filter. split; [done|].
      unfold keepRef. simpl. rewrite Hs.
      apply Qlt_bool_iff in Hlt as ->. apply orb_true_r.
    + exists (cancelled endTs s). split; [|done].
      subst st'. rewrite (finishIdleTransaction_children _ _ _ _ _ Hrec).
      rewrite decide_True by done. rewrite Hs. simpl. unfold closeOpen.
      apply String.eqb_neq in Hid as ->. by rewrite Hopen.
  - intros n s Hs Hid Hge Hin.
    apply elem_of_List_filter in Hin as [_ Hk].
    unfold keepRef in Hk. simpl in Hk. rewrite Hs in Hk.
    apply String.eqb_neq in Hid. rewrite Hid in Hk. simpl in Hk.
    apply Qlt_bool_iff in Hk. by apply Qlt_not_le in Hk.
  - intros r Hin. by apply elem_of_List_filter in Hin as [? _].
Qed.

(** A finalisation at 3 with the second child open. *)
Lemma finalize_prunes_witness :
  ∃ rec',
    spanRecorder (_finishIdleTransaction 3%Q 3%Q resumed) = Some rec'
    ∧ (This ∈ spans (mkRecorder 10 [This; Child 0; Child 1] true true) →
       This ∈ spans rec').
Proof.
  destruct (finalize_prunes 3%Q 3%Q
              (mkRecorder 10 [This; Child 0; Child 1] true true) resumed)
    as (rec' & H1 & H2 & _).
  - reflexivity.
  - exists rec'. auto.
Defined.

(** ** The activities follow the unfinished children *)

Lemma JsObject_set_all_true k (o : JsObject.t bool) :
  Forall (λ kv, kv.2 = true) o →
  Forall (λ kv, kv.2 = true) (JsObject.set k true o).
Proof.
  induction o as [|[k0 v0] o IH]; simpl.
  - intros _. by apply Forall_singleton.
  - rewrite Forall_cons. intros [H1 H2].
    destruct (String.eqb k0 k); apply Forall_cons; auto.
Qed.

Lemma JsObject_delete_all_true k (o : JsObject.t bool) :
  Forall (λ kv, kv.2 = true) o →
  Forall (λ kv, kv.2 = true) (JsObject.delete k o).
Proof.
  unfold JsObject.delete. rewrite !Forall_forall.
  intros H kv Hin. apply list_elem_of_filter in Hin as [_ Hin]. auto.
Qed.

Lemma JsObject_delete_delete {V} k (o : JsObject.t V) :
  JsObject.delete k (JsObject.delete k o) = JsObject.delete k o.
Proof.
  apply JsObject_delete_absent. rewrite JsObject_keys_delete. tauto.
Qed.

(** With every flag [true], a pop leaves the activities without the key. *)
Lemma popActivity_delete id now st :
  Forall (λ kv, kv.2 = true) (activities st) →
  activities (_popActivity id now st) = JsObject.delete id (activities st).
Proof.
  intros Hall. rewrite activities_popActivity.
  destruct (decide (id ∈ JsObject.keys (activities st))) as [Hin|Hnin].
  - by rewrite (JsObject_get_true _ _ Hall Hin).
  - rewrite JsObject_delete_absent by done.
    apply JsObject_get_None in Hnin. by rewrite Hnin.
Qed.

Lemma iter_afterFinish k id now st rec :
  spanRecorder st = Some rec → has_popActivity rec = true →
  Forall (λ kv, kv.2 = true) (activities st) →
  let st' := Nat.iter k (afterFinish id now) st in
  base st' = base st ∧ spanRecorder st' = spanRecorder st
  ∧ children st' = children st
  ∧ activities st' =
    if bool_decide (k = 0) || String.eqb id (spanId (base st))
    then activities st
    else JsObject.delete id (activities st).
Proof.
  intros Hrec Hpop Hall. induction k as [|k IH]; simpl; [done|].
  destruct IH as (Hb & Hr & Hc & Ha).
  set (s := Nat.iter k (afterFinish id now) st) in *.
  unfold afterFinish, popActivity. rewrite Hr, Hrec, Hpop, Hb.
  destruct (String.eqb id (spanId (base st))) eqn:E.
  - rewrite orb_true_r in Ha. repeat split; congruence.
  - pose proof (popActivity_frame id now s) as (Hb' & Hr' & Hc' & _).
    rewrite Hb', Hr', Hc', Hb, Hr, Hc. repeat split; try congruence.
    rewrite orb_false_r in Ha.
    assert (Forall (λ kv, kv.2 = true) (activities s)) as Hall'.
    { rewrite Ha. destruct (bool_decide (k = 0)); [done|].
      by apply JsObject_delete_all_true. }
    rewrite popActivity_delete, Ha by done.
    destruct (bool_decide (k = 0)); [done|].
    apply JsObject_delete_delete.
Qed.

Lemma startChild_shape id now st rec :
  spanRecorder st = Some rec → has_pushActivity rec = true →
  let st' := (startChild id now st).2 in
  base st' = base st
  ∧ spanRecorder st' =
    Some (SpanRecorder_add (Child (length (children st))) rec)
  ∧ children st' = children st ++ [mkSpan id now None None [] 1]
  ∧ activities st' =
    if String.eqb id (spanId (base st)) then activities st
    else JsObject.set id true (activities st).
Proof.
  intros Hrec Hpush. unfold startChild, add. simpl. rewrite Hrec.
  rewrite lookup_app_r, Nat.sub_diag by done. simpl. rewrite Hpush.
  unfold pushActivity. simpl.
  rewrite insert_app_r_alt, Nat.sub_diag by done. simpl.
  by destruct (String.eqb id (spanId (base st))).
Qed.

Lemma finishSpan_shape n endTs now st rec s :
  spanRecorder st = Some rec → has_popActivity rec = true →
  Forall (λ kv, kv.2 = true) (activities st) →
  children st !! n = Some s →
  0 < finishWrappers s →
  let st' := finishSpan n endTs now st in
  base st' = base st ∧ spanRecorder st' = spanRecorder st
  ∧ children st' = children st
  ∧ activities st' =
    if String.eqb (spanId s) (spanId (base st))
    then activities st
    else JsObject.delete (spanId s) (activities st).
Proof.
  intros Hrec Hpop Hall Hs Hw. unfold finishSpan. rewrite Hs.
  destruct (finishWrappers s) as [|w] eqn:E; [lia|].
  pose proof (iter_afterFinish (S w) (spanId s) now st rec Hrec Hpop Hall) as I.
  cbv zeta in I. rewrite bool_decide_eq_false_2 in I by done. exact I.
Qed.

Lemma startedIds_ledger cs : (spec_ledger cs).*1 = startedIds cs.
Proof.
  unfold spec_ledger, startedIds.
  induction cs as [|c cs IH] using rev_ind; [done|].
  rewrite foldl_snoc, omap_app. destruct c as [id now|n endTs now]; simpl.
  - by rewrite fmap_app, IH.
  - rewrite app_nil_r, <-IH.
    rewrite (list_fmap_alter _ _ id); [by apply list_alter_id|].
    by apply Forall_true.
Qed.

Lemma tracking_init id hub timeout now maxlen :
  tracking id [] (initSpanRecorder maxlen (new_IdleTransaction id hub timeout now)).
Proof.
  unfold tracking, initSpanRecorder, new_IdleTransaction, add, pushActivity.
  destruct hub; simpl; rewrite String.eqb_refl; simpl.
  all: split; [done|]; split; [by eexists|].
  all: split; [constructor|]; split; [constructor|].
  all: split; [done|]; split; [constructor|].
  all: intros k; split;
    [intros H; by apply elem_of_nil in H
    |intros [H _]; by apply elem_of_nil in H].
Qed.

Lemma tracking_start root id now l st :
  tracking root l st →
  tracking root (l ++ [(id, false)]) (startChild id now st).2.
Proof.
  intros (Hroot & (rec & Hrec & Hpush & Hpop) & Htrue & Hkeys & Hids
                 & Hwrap & Hiff).
  pose proof (startChild_shape id now st rec Hrec Hpush)
    as (Hb & Hr & Hc & Ha).
  unfold tracking. rewrite Hb, Hr, Hc, Ha, Hroot.
  split; [done|]. split; [by eexists|].
  split; [destruct (String.eqb id root); [done|by apply JsObject_set_all_true]|].
  split; [destruct (String.eqb id root); [done|by apply JsObject_keys_NoDup_set]|].
  split; [by rewrite !fmap_app, Hids|].
  split.
  { apply Forall_app. split; [done|]. apply Forall_singleton. simpl. lia. }
  intros k. rewrite elem_of_app, list_elem_of_singleton.
  destruct (String.eqb_spec id root) as [Heq|Hne].
  - rewrite Hiff. split; [tauto|].
    intros [[H|H] Hk]; [done|]. congruence.
  - rewrite JsObject_keys_set, Hiff. split.
    + intros [->|[H Hk]]; auto.
    + intros [[H|H] Hk]; [by right|]. left. congruence.
Qed.

Lemma tracking_finish root n endTs now l st :
  NoDup l.*1 →
  tracking root l st →
  tracking root (alter (λ p, (p.1, true)) n l) (finishSpan n endTs now st).
Proof.
  intros Hnd (Hroot & (rec & Hrec & Hpush & Hpop) & Htrue & Hkeys & Hids
                 & Hwrap & Hiff).
  assert ((alter (λ p : string * bool, (p.1, true)) n l).*1 = l.*1) as Hfst.
  { rewrite (list_fmap_alter _ _ id); [by apply list_alter_id|].
    by apply Forall_true. }
  destruct (children st !! n) as [s|] eqn:Hs; cycle 1.
  { assert (l !! n = None) as Hn.
    { apply lookup_ge_None. apply lookup_ge_None in Hs.
      rewrite <-(length_fmap fst l), <-Hids, length_fmap. done. }
    assert (alter (λ p : string * bool, (p.1, true)) n l = l) as ->.
    { apply list_eq. intros i. rewrite list_lookup_alter.
      case_decide; [subst i; by rewrite Hn|done]. }
    unfold finishSpan. rewrite Hs. unfold tracking. eauto 10. }
  assert (0 < finishWrappers s) as Hw by (by eapply Forall_lookup_1 in Hwrap).
  pose proof (finishSpan_shape n endTs now st rec s Hrec Hpop Htrue Hs Hw)
    as (Hb & Hr & Hc & Ha).
  assert (∃ b, l !! n = Some (spanId s, b)) as [b Hl].
  { assert (l.*1 !! n = Some (spanId s)) as H.
    { by rewrite <-Hids, list_lookup_fmap, Hs. }
    rewrite list_lookup_fmap in H.
    destruct (l !! n) as [[k b]|]; [|done]. simpl in H.
    injection H as ->. by exists b. }
  assert (∀ k, (k, false) ∈ alter (λ p : string * bool, (p.1, true)) n l
               ↔ (k, false) ∈ l ∧ k ≠ spanId s) as Hmem.
  { intros k. rewrite !list_elem_of_lookup. split.
    - intros [i Hi]. rewrite list_lookup_alter in Hi. case_decide.
      + subst i. by rewrite Hl in Hi.
      + split; [by exists i|]. intros ->. apply H.
        eapply NoDup_alt; [exact Hnd| |].
        * by rewrite list_lookup_fmap, Hl.
        * by rewrite list_lookup_fmap, Hi.
    - intros [[i Hi] Hne]. exists i. rewrite list_lookup_alter.
      case_decide; [|done]. subst i. congruence. }
  unfold tracking. rewrite Hb, Hr, Hc, Ha, Hroot, Hfst.
  split; [done|]. split; [by eexists|].
  split.
  { destruct (String.eqb (spanId s) root); [done|].
    by apply JsObject_delete_all_true. }
  split.
  { destruct (String.eqb (spanId s) root); [done|].
    by apply JsObject_keys_NoDup_delete. }
  split; [done|]. split; [done|].
  intros k. rewrite Hmem.
  destruct (String.eqb_spec (spanId s) root) as [Heq|Hne].
  - rewrite Hiff. split; [|tauto].
    intros [H Hk]. split; [|done]. split; [done|]. congruence.
  - rewrite JsObject_keys_delete, Hiff. tauto.
Qed.

Lemma tracking_run root cs st :
  NoDup (startedIds cs) →
  tracking root [] st →
  tracking root (spec_ledger cs) (callChildren cs st).
Proof.
  unfold spec_ledger, callChildren.
  induction cs as [|c cs IH] using rev_ind; [done|].
  intros Hnd Hinit. rewrite !foldl_snoc.
  assert (NoDup (startedIds cs)) as Hnd'.
  { unfold startedIds in Hnd. rewrite omap_app in Hnd.
    by apply NoDup_app in Hnd as [? _]. }
  specialize (IH Hnd' Hinit).
  destruct c as [id now|n endTs now]; simpl.
  - by apply tracking_start.
  - apply tracking_finish; [|done].
    fold (spec_ledger cs). by rewrite startedIds_ledger.
Qed.

Lemma tracking_size root l st :
  NoDup l.*1 →
  tracking root l st →
  length (JsObject.keys (activities st))
  = length (filter (λ p, p.2 = false ∧ p.1 ≠ root) l).*1.
Proof.
  intros Hnd (Hroot & _ & _ & Hkeys & _ & _ & Hiff).
  apply Permutation_length, NoDup_Permutation; [done| |].
  - eapply sublist_NoDup; [exact Hnd|].
    apply fmap_sublist, sublist_filter.
  - intros k. rewrite Hiff, list_elem_of_fmap. split.
    + intros [Hin Hk]. exists (k, false). split; [done|].
      by apply list_elem_of_filter.
    + intros ([k' b] & -> & Hin).
      apply list_elem_of_filter in Hin as [[Hb Hk] Hin].
      simpl in *. by subst b.
Qed.

(** C5. Take a transaction that has just been created and attached to its
    recorder, and let the instrumented code start children, each under an
    identifier of its own, and call [finish] on them, in any order and any
    number of times.  At every point of the sequence an identifier is a key
    of the activities exactly when a span was started under it, [finish]
    has not yet been called on that span, and it is not the identifier of
    the transaction; the identifier of the transaction is never a key; and
    the number of keys is the number of such spans.  It is the calls of
    [finish] that count: the wrapper leaves the end timestamp of the span
    unset. *)
Theorem activities_track_unfinished_children
    (id : string) (hub : bool) (timeout : option Q) (now0 : Q) (maxlen : nat)
    (cs : list ChildCall) (i : nat) :
  NoDup (startedIds cs) →
  let st := callChildren (take i cs)
              (initSpanRecorder maxlen
                 (new_IdleTransaction id hub timeout now0)) in
  spanId (base st) = id
  ∧ (∀ k, k ∈ JsObject.keys (activities st)
          ↔ k ∈ spec_unfinished id (take i cs))
  ∧ (id ∉ JsObject.keys (activities st))
  ∧ length (JsObject.keys (activities st))
    = length (spec_unfinished id (take i cs)).
Proof.
  intros Hnd st.
  assert (NoDup (startedIds (take i cs))) as Hnd'.
  { eapply sublist_NoDup; [exact Hnd|].
    unfold startedIds. rewrite <-(take_drop i cs) at 2. rewrite omap_app.
    apply sublist_inserts_r. done. }
  assert (tracking id (spec_ledger (take i cs)) st) as Hinv.
  { apply tracking_run; [done | apply tracking_init]. }
  assert (NoDup (spec_ledger (take i cs)).*1) as Hl
    by (by rewrite startedIds_ledger).
  pose proof (tracking_size id _ st Hl Hinv) as Hsize.
  destruct Hinv as (Hroot & _ & _ & _ & _ & _ & Hiff).
  assert (∀ k, k ∈ JsObject.keys (activities st)
               ↔ k ∈ spec_unfinished id (take i cs)) as Hmem.
  { intros k. rewrite Hiff. unfold spec_unfinished.
    rewrite list_elem_of_fmap. split.
    - intros [Hin Hk]. exists (k, false). split; [done|].
      by apply list_elem_of_filter.
    - intros ([k' b] & -> & Hin).
      apply list_elem_of_filter in Hin as [[Hb Hk] Hin].
      simpl in *. by subst b. }
  split; [done|]. split; [done|]. split; [|done].
  rewrite Hiff. intros [_ Hk]. done.
Qed.

(** Two children are started, [finish] is called on the first one twice and
    a third child is started: the second and the third are the activities. *)
Lemma activities_track_unfinished_children_witness :
  NoDup (startedIds [StartChild "a" 1%Q; StartChild "b" 2%Q;
                     FinishChild 0 None 3%Q; FinishChild 0 (Some 4%Q) 4%Q;
                     StartChild "c" 5%Q])
  ∧ (∀ k, k ∈ JsObject.keys (activities
            (callChildren
               (take 5 [StartChild "a" 1%Q; StartChild "b" 2%Q;
                        FinishChild 0 None 3%Q; FinishChild 0 (Some 4%Q) 4%Q;
                        StartChild "c" 5%Q])
               (initSpanRecorder 10
                  (new_IdleTransaction "root" true (Some 1000%Q) 0%Q))))
          ↔ k ∈ ["b"; "c"]).
Proof.
  assert (NoDup (startedIds [StartChild "a" 1%Q; StartChild "b" 2%Q;
                             FinishChild 0 None 3%Q;
                             FinishChild 0 (Some 4%Q) 4%Q;
                             StartChild "c" 5%Q])) as Hnd.
  { vm_compute. apply (NoDup_ListNoDup ["a"; "b"; "c"]).
    repeat constructor; simpl; intuition discriminate. }
  split; [exact Hnd|].
  apply (activities_track_unfinished_children
           "root" true (Some 1000%Q) 0%Q 10 _ 5 Hnd).
Defined.

(** ** Timers and the heartbeat along the runs of the engine *)

Lemma heartbeat_inv_view st st' :
  timerView st' = timerView st → heartbeat_inv st → heartbeat_inv st'.
Proof.
  unfold timerView, heartbeat_inv, timers_fresh.
  intros [= -> -> -> ->]. done.
Qed.

Lemma heartbeat_inv_popActivity id now st :
  heartbeat_inv st → heartbeat_inv (_popActivity id now st).
Proof.
  intros [Hfresh Hbeat].
  destruct (popActivity_timers id now st) as [Ht Hn].
  pose proof (popActivity_frame id now st)
    as (_ & _ & _ & _ & _ & _ & Hh & _ & Hc).
  unfold heartbeat_inv, timers_fresh. rewrite Ht, Hn, Hh, Hc.
  destruct (activities (_popActivity id now st)); [|done].
  split.
  - intros t Hin. apply elem_of_app in Hin as [Hin|Hin].
    + apply Hfresh in Hin. lia.
    + apply list_elem_of_singleton in Hin. subst t. simpl. lia.
  - intros t Hin Hcb. apply elem_of_app in Hin as [Hin|Hin]; [auto|].
    apply list_elem_of_singleton in Hin. subst t. done.
Qed.

Lemma heartbeat_inv_afterFinish k id now st :
  heartbeat_inv st → heartbeat_inv (Nat.iter k (afterFinish id now) st).
Proof.
  intros Hinv. induction k as [|k IH]; simpl; [done|].
  unfold afterFinish at 1, popActivity.
  destruct (spanRecorder _) as [rec|]; [|done].
  destruct (has_popActivity rec); [|done].
  destruct (String.eqb id _); [done|].
  by apply heartbeat_inv_popActivity.
Qed.

Lemma heartbeat_inv_add r st : heartbeat_inv st → heartbeat_inv (add r st).
Proof.
  intros Hinv. unfold add.
  destruct (spanRecorder st) as [rec|]; [|done].
  destruct (deref st r) as [span|]; [|done].
  eapply heartbeat_inv_view; [|exact Hinv].
  unfold pushActivity.
  destruct (has_pushActivity rec); [|by destruct r].
  match goal with
  | |- context [String.eqb ?a ?b] => destruct (String.eqb a b)
  end; by destruct r.
Qed.

Lemma heartbeat_inv_finishIdleTransaction endTs now st :
  heartbeat_inv st → heartbeat_inv (_finishIdleTransaction endTs now st).
Proof.
  apply heartbeat_inv_view. unfold timerView.
  pose proof (finishIdleTransaction_frame endTs now st)
    as (_ & _ & -> & -> & -> & _ & -> & _).
  done.
Qed.

Lemma heartbeat_inv_unschedule id st :
  heartbeat_inv st → heartbeat_inv (unschedule id st).
Proof.
  intros [Hfresh Hbeat]. split.
  - intros t Hin. apply list_elem_of_filter in Hin as [_ Hin]. by apply Hfresh.
  - intros t Hin. apply list_elem_of_filter in Hin as [_ Hin]. by apply Hbeat.
Qed.

Lemma heartbeat_inv_beat now st :
  heartbeat_inv st →
  (∀ t, t ∈ timers st → callback t ≠ BeatCallback) →
  heartbeat_inv (_beat now st).
Proof.
  intros [Hfresh _] Hnone. rewrite beat_unfold. cbv zeta.
  set (counter := if bool_decide _ then _ else _).
  destruct (Nat.leb 3 counter) eqn:E.
  - apply heartbeat_inv_finishIdleTransaction. split.
    + intros t Hin. simpl in Hin.
      apply list_elem_of_filter in Hin as [_ Hin]. by apply Hfresh.
    + intros t Hin Hcb. simpl in Hin.
      apply list_elem_of_filter in Hin as [_ Hin]. by apply Hnone in Hin.
  - apply Nat.leb_gt in E. split.
    + intros t Hin. simpl in Hin. simpl.
      apply elem_of_app in Hin as [Hin|Hin].
      * apply list_elem_of_filter in Hin as [_ Hin]. apply Hfresh in Hin. lia.
      * apply list_elem_of_singleton in Hin. subst t. simpl. lia.
    + intros t Hin Hcb. simpl in Hin. simpl.
      apply elem_of_app in Hin as [Hin|Hin].
      * apply list_elem_of_filter in Hin as [_ Hin]. by apply Hnone in Hin.
      * apply list_elem_of_singleton in Hin. subst t. simpl. lia.
Qed.

Lemma heartbeat_inv_step st st' :
  engineStep st st' → heartbeat_inv st → heartbeat_inv st'.
Proof.
  intros Hstep Hinv. destruct Hstep.
  - unfold startChild. simpl. apply heartbeat_inv_add.
    by eapply heartbeat_inv_view; [|exact Hinv].
  - unfold finishSpan. destruct (children st !! n) as [span|]; [|done].
    apply heartbeat_inv_afterFinish.
    destruct (finishWrappers span); [|done].
    by eapply heartbeat_inv_view; [|exact Hinv].
  - rewrite finish_emit. by eapply heartbeat_inv_view; [|exact Hinv].
  - by eapply heartbeat_inv_view; [|exact Hinv].
  - unfold initSpanRecorder. apply heartbeat_inv_add.
    destruct (spanRecorder st); [done|].
    by eapply heartbeat_inv_view; [|exact Hinv].
  - unfold fire in H.
    destruct (list_find _ _) as [[i t]|] eqn:Hfind; [|done].
    destruct (Qle_bool (due t) now); [|done]. injection H as <-.
    apply list_find_Some in Hfind as (Hi & Hid & _).
    assert (t ∈ timers st) as Hin by (by eapply list_elem_of_lookup_2).
    destruct (callback t) eqn:Hcb; simpl.
    + apply heartbeat_inv_beat; [by apply heartbeat_inv_unschedule|].
      intros t' Hin' Hcb'. simpl in Hin'.
      apply list_elem_of_filter in Hin' as [Hne Hin'].
      destruct Hinv as [_ Hbeat].
      destruct (Hbeat t Hin Hcb) as [Ht _].
      destruct (Hbeat t' Hin' Hcb') as [Ht' _]. congruence.
    + apply heartbeat_inv_finishIdleTransaction.
      by apply heartbeat_inv_unschedule.
Qed.

(** Along every run from the constructor, timer identifiers stay fresh and
    every heartbeat the host can run finds a counter of at most 2: the
    safeguard acts on the tick that takes the counter to 3. *)
Lemma heartbeat_inv_reachable id hub timeout now st :
  rtc engineStep (new_IdleTransaction id hub timeout now) st →
  heartbeat_inv st.
Proof.
  intros Hrun.
  assert (heartbeat_inv (new_IdleTransaction id hub timeout now)) as Hinit.
  { unfold new_IdleTransaction. destruct hub; simpl.
    all: split; intros t Hin; apply list_elem_of_singleton in Hin; subst t;
      simpl; [lia | intros _; lia]. }
  revert Hinit. induction Hrun as [|st st1 st2 Hstep _ IH]; [done|].
  intros Hinv. apply IH. by eapply heartbeat_inv_step.
Qed.

(** ** The scenarios of the test suite *)

(** "push and pops activities": the child is an activity while it is open,
    and running the pending timers after it finished enters the finish path
    once. *)
Example test_push_and_pops_activities :
  JsObject.keys (activities (startChild "a" 1%Q started).2) = ["a"]
  ∧ finishCalls (startChild "a" 1%Q started).2 = 0
  ∧ activities idle_armed = []
  ∧ (s1 ← fire 2 5%Q idle_armed; s2 ← fire 1 5%Q s1; Some (finishCalls s2))
    = Some 1.
Proof. repeat split; reflexivity. Qed.

(** "finishes a transaction after 3 beats", with the status and the tag the
    safeguard leaves. *)
Example test_finishes_after_3_beats :
  (s1 ← fire 1 5%Q started; Some (finishCalls s1)) = Some 0
  ∧ (s1 ← fire 1 5%Q started; s2 ← fire 2 10%Q s1; Some (finishCalls s2))
    = Some 0
  ∧ (s1 ← fire 1 5%Q started; s2 ← fire 2 10%Q s1; s3 ← fire 3 15%Q s2;
     Some (finishCalls s3, status (base s3), tags (base s3)))
    = Some (1, Some DeadlineExceeded, [("heartbeat", "failed")]).
Proof. repeat split; reflexivity. Qed.

(** A child that is started and never finished: no delayed finish is ever
    armed, and the third heartbeat finalises the transaction and cancels the
    child. *)
Example test_heartbeat_with_open_child :
  timers (startChild "a" 1%Q started).2 = timers started
  ∧ (s1 ← fire 1 5%Q (startChild "a" 1%Q started).2;
     s2 ← fire 2 10%Q s1; s3 ← fire 3 15%Q s2;
     Some (finishCalls s2, finishCalls s3, status (base s3),
           status <$> children s3 !! 0))
    = Some (0, 1, Some DeadlineExceeded, Some (Some Cancelled)).
Proof. repeat split; reflexivity. Qed.

(** * Further properties of the idle transaction *)

(** X1. Calling [finish] on the transaction itself only enters the
    inherited finish path: however many times the recorder has wrapped the
    method, no activity is popped, no timer is armed or cleared, and the
    heartbeat that is pending stays pending. *)
Theorem transaction_finish_inert
    (endTs : option Q) (now : Q) (st : IdleTransaction) :
  let st' := finish endTs now st in
  st' = emit st (CallFinish endTs)
  ∧ finishCalls st' = S (finishCalls st)
  ∧ callbackCalls st' = callbackCalls st
  ∧ activities st' = activities st
  ∧ timers st' = timers st
  ∧ _heartbeatTimer st' = _heartbeatTimer st
  ∧ _heartbeatCounter st' = _heartbeatCounter st.
Proof.
  simpl. rewrite finish_emit. unfold finishCalls, callbackCalls. simpl.
  rewrite !List.filter_app, !length_app. simpl.
  repeat split; try done; lia.
Qed.

Lemma children_length_lookup (l1 l2 : list Span) :
  (∀ n, is_Some (l1 !! n) ↔ is_Some (l2 !! n)) → length l1 = length l2.
Proof.
  intros H.
  destruct (decide (length l1 = length l2)) as [|Hne]; [done|].
  destruct (decide (length l1 < length l2)) as [Hlt|Hge].
  - apply lookup_lt_is_Some_2, H, lookup_lt_is_Some_1 in Hlt. lia.
  - assert (length l2 < length l1) as Hlt by lia.
    apply lookup_lt_is_Some_2, H, lookup_lt_is_Some_1 in Hlt. lia.
Qed.

Lemma finishIdleTransaction_children_cases endTs now st n :
  children (_finishIdleTransaction endTs now st) !! n = children st !! n
  ∨ children (_finishIdleTransaction endTs now st) !! n =
    closeOpen endTs (spanId (base st)) <$> children st !! n.
Proof.
  destruct (spanRecorder st) as [rec|] eqn:Hrec.
  - rewrite (finishIdleTransaction_children _ _ _ rec) by done.
    destruct (decide (Child n ∈ spans rec)); auto.
  - left. unfold _finishIdleTransaction. by rewrite Hrec.
Qed.

(** X2. The finalisation never arms or clears a timer and never changes the
    activities, the heartbeat string and counter, the callback or the idle
    timeout.  It neither adds nor removes a span of the store, and the only
    fields of a span it ever writes are the end timestamp and the status,
    which it sets together, to its own end timestamp and to Cancelled. *)
Theorem finalize_writes_only_end_and_status
    (endTs now : Q) (st : IdleTransaction) :
  let st' := _finishIdleTransaction endTs now st in
  timers st' = timers st ∧ nextTimerId st' = nextTimerId st
  ∧ activities st' = activities st
  ∧ _prevHeartbeatString st' = _prevHeartbeatString st
  ∧ _heartbeatCounter st' = _heartbeatCounter st
  ∧ _finishCallback st' = _finishCallback st
  ∧ _idleTimeout st' = _idleTimeout st
  ∧ base st' = base st
  ∧ length (children st') = length (children st)
  ∧ ∀ n s', children st' !! n = Some s' →
      ∃ s, children st !! n = Some s
           ∧ spanId s' = spanId s
           ∧ startTimestamp s' = startTimestamp s
           ∧ tags s' = tags s
           ∧ finishWrappers s' = finishWrappers s
           ∧ (s' = s
              ∨ endTimestamp s' = Some endTs ∧ status s' = Some Cancelled).
Proof.
  intros st'. subst st'.
  pose proof (finishIdleTransaction_frame endTs now st)
    as (F1 & F2 & F3 & F4 & F5 & F6 & F7 & F8 & F9).
  repeat (split; [done|]). split.
  - apply children_length_lookup. intros n.
    destruct (finishIdleTransaction_children_cases endTs now st n) as [->| ->];
      [done|].
    by rewrite fmap_is_Some.
  - intros n s' Hs'.
    destruct (finishIdleTransaction_children_cases endTs now st n) as [H|H];
      rewrite H in Hs'.
    + exists s'. auto 10.
    + destruct (children st !! n) as [s|]; [|done]. injection Hs' as <-.
      exists s. split; [done|]. unfold closeOpen.
      destruct (String.eqb (spanId s) (spanId (base st))); [auto 10|].
      destruct (falsy (endTimestamp s)); [|auto 10].
      simpl. auto 10.
Qed.

(** X3. Which spans a finalisation rewrites.  A span that is not in the
    sequence of the recorder, a span that carries the identifier of the
    transaction, and a span whose end timestamp is set and not zero are left
    exactly as they are.  A span of the sequence whose end timestamp is 0 is
    taken for an open one: its end timestamp is overwritten and its status
    becomes Cancelled. *)
Theorem finalize_rewrites_open_spans_only
    (endTs now : Q) (rec : IdleTransactionSpanRecorder)
    (st : IdleTransaction) (n : nat) (s : Span) :
  spanRecorder st = Some rec →
  children st !! n = Some s →
  let st' := _finishIdleTransaction endTs now st in
  (Child n ∉ spans rec → children st' !! n = Some s)
  ∧ (spanId s = spanId (base st) → children st' !! n = Some s)
  ∧ (falsy (endTimestamp s) = false → children st' !! n = Some s)
  ∧ (∀ q, Child n ∈ spans rec → spanId s ≠ spanId (base st) →
          endTimestamp s = Some q → (q == 0)%Q →
          children st' !! n = Some (cancelled endTs s)).
Proof.
  intros Hrec Hs st'. subst st'.
  rewrite (finishIdleTransaction_children _ _ _ rec) by done.
  rewrite Hs. simpl. unfold closeOpen.
  split; [|split; [|split]].
  - intros Hnin. by rewrite decide_False.
  - intros ->. rewrite String.eqb_refl. by destruct (decide _).
  - intros ->. destruct (decide _); [|done].
    by destruct (String.eqb _ _).
  - intros q Hin Hne Hq Hz. rewrite decide_True by done.
    apply String.eqb_neq in Hne as ->. rewrite Hq. simpl.
    by apply Qeq_bool_iff in Hz as ->.
Qed.

(** The end timestamp of the second child of the scenario is 0 (the field
    is written on the span itself) when a finalisation at 3 runs. *)
Lemma finalize_rewrites_open_spans_only_witness :
  children (store (Child 1) (mkSpan "b" (5 # 2)%Q (Some 0%Q) None [] 1)
              resumed) !! 1 =
    Some (mkSpan "b" (5 # 2)%Q (Some 0%Q) None [] 1)
  ∧ children (_finishIdleTransaction 3%Q 3%Q
                (store (Child 1) (mkSpan "b" (5 # 2)%Q (Some 0%Q) None [] 1)
                   resumed)) !! 1 =
    Some (cancelled 3%Q (mkSpan "b" (5 # 2)%Q (Some 0%Q) None [] 1)).
Proof.
  split; [reflexivity|].
  apply (finalize_rewrites_open_spans_only 3%Q 3%Q
           (mkRecorder 10 [This; Child 0; Child 1] true true)
           (store (Child 1) (mkSpan "b" (5 # 2)%Q (Some 0%Q) None [] 1)
              resumed) 1
           (mkSpan "b" (5 # 2)%Q (Some 0%Q) None [] 1)
           eq_refl eq_refl) with (q := 0%Q).
  - vm_compute. right. right. left.
  - vm_compute. discriminate.
  - reflexivity.
  - reflexivity.
Defined.

Lemma List_filter_idemp {A} (f : A → bool) (l : list A) :
  List.filter f (List.filter f l) = List.filter f l.
Proof.
  induction l as [|x l IH]; simpl; [done|].
  destruct (f x) eqn:E; simpl; [|done]. by rewrite E, IH.
Qed.

Lemma closeOpen_keeps endTs root s :
  spanId (closeOpen endTs root s) = spanId s
  ∧ startTimestamp (closeOpen endTs root s) = startTimestamp s.
Proof.
  unfold closeOpen. destruct (String.eqb (spanId s) root); [done|].
  by destruct (falsy (endTimestamp s)).
Qed.

Lemma keepRef_finishIdleTransaction endTs e now st r :
  keepRef e (_finishIdleTransaction endTs now st) r = keepRef e st r.
Proof.
  unfold keepRef.
  assert (base (_finishIdleTransaction endTs now st) = base st) as Hb
    by apply finishIdleTransaction_frame.
  rewrite Hb. destruct r as [|n]; simpl; [by rewrite Hb|].
  destruct (finishIdleTransaction_children_cases endTs now st n) as [->| ->];
    [done|].
  destruct (children st !! n) as [s|]; simpl; [|done].
  by destruct (closeOpen_keeps endTs (spanId (base st)) s) as [-> ->].
Qed.

(** X4. Running the finalisation again with the same end timestamp changes
    nothing but the trace: the sequence of the recorder and every span are
    as the first run left them. *)
Theorem finalize_same_timestamp_idempotent
    (endTs now now' : Q) (st : IdleTransaction) :
  is_Some (spanRecorder st) →
  let st1 := _finishIdleTransaction endTs now st in
  let st2 := _finishIdleTransaction endTs now' st1 in
  spanRecorder st2 = spanRecorder st1
  ∧ children st2 = children st1
  ∧ base st2 = base st1
  ∧ activities st2 = activities st1
  ∧ timers st2 = timers st1.
Proof.
  intros [rec Hrec] st1 st2.
  pose proof (finishIdleTransaction_recorder endTs now st rec Hrec) as Hrec1.
  fold st1 in Hrec1.
  pose proof (finishIdleTransaction_recorder endTs now' st1 _ Hrec1) as Hrec2.
  fold st2 in Hrec2.
  pose proof (finishIdleTransaction_frame endTs now' st1)
    as (F1 & F2 & F3 & _).
  fold st2 in F1, F2, F3.
  split; [|split; [|done]].
  - rewrite Hrec2, Hrec1. simpl. unfold set_spans. simpl.
    rewrite (List.filter_ext (keepRef endTs st1) (keepRef endTs st))
      by (intros r; apply keepRef_finishIdleTransaction).
    by rewrite List_filter_idemp.
  - apply list_eq. intros n. subst st2.
    rewrite (finishIdleTransaction_children _ _ _ _ _ Hrec1).
    destruct (decide _) as [Hin|]; [|done].
    simpl in Hin. apply elem_of_List_filter in Hin as [Hin _].
    assert (base st1 = base st) as -> by apply finishIdleTransaction_frame.
    subst st1. rewrite (finishIdleTransaction_children _ _ _ _ _ Hrec).
    rewrite decide_True by done.
    destruct (children st !! n) as [s|]; simpl; [|done].
    by rewrite closeOpen_idemp.
Qed.

Lemma finalize_same_timestamp_idempotent_witness :
  is_Some (spanRecorder resumed)
  ∧ children (_finishIdleTransaction 3%Q 4%Q
                (_finishIdleTransaction 3%Q 3%Q resumed)) =
    children (_finishIdleTransaction 3%Q 3%Q resumed).
Proof.
  assert (is_Some (spanRecorder resumed)) as H by (vm_compute; eauto).
  split; [exact H|].
  apply (finalize_same_timestamp_idempotent 3%Q 3%Q 4%Q resumed H).
Defined.

Lemma app_singleton_neq {A} (l : list A) (x : A) : l ++ [x] ≠ l.
Proof.
  intros H. apply (f_equal length) in H. rewrite length_app in H.
  simpl in H. lia.
Qed.

(** X5. What a pop does to the activities and the timers.  The keys after
    the pop are the keys before it without the popped one (an entry that is
    not truthy would stay).  The pop arms a timer exactly when no activity
    is left after it, and then exactly one, the delayed finish; when an
    activity is left the pending timers are as before. *)
Theorem popActivity_arms_iff_empty
    (id : string) (now : Q) (st : IdleTransaction) :
  let st' := _popActivity id now st in
  (∀ k, k ∈ JsObject.keys (activities st')
        ↔ k ∈ JsObject.keys (activities st)
          ∧ (k ≠ id ∨ JsObject.get id (activities st) ≠ Some true))
  ∧ (timers st' = timers st ↔ activities st' ≠ [])
  ∧ (activities st' = [] →
       timers st' =
       timers st
       ++ [mkTimer (nextTimerId st) now (_idleTimeout st)
             (FinishIdleCallback (now + _idleTimeout st / 1000)%Q)])
  ∧ (activities st' ≠ [] →
       st' = if truthy (JsObject.get id (activities st))
             then set_activities st (JsObject.delete id (activities st))
             else st).
Proof.
  intros st'.
  destruct (popActivity_timers id now st) as [Ht _]. fold st' in Ht.
  pose proof (activities_popActivity id now st) as Ha. fold st' in Ha.
  split.
  { intros k. rewrite Ha.
    destruct (JsObject.get id (activities st)) as [[|]|] eqn:G; simpl.
    - rewrite JsObject_keys_delete. split; [intros [? ?]; auto|].
      intros [? [?|?]]; done.
    - split; [intros ?; split; [done|right; done] | tauto].
    - split; [intros ?; split; [done|right; done] | tauto]. }
  split.
  { rewrite Ht. destruct (activities st') eqn:E.
    - split; [intros H; by apply app_singleton_neq in H | done].
    - done. }
  split.
  { intros E. by rewrite Ht, E. }
  intros Hne. subst st'. unfold _popActivity in *.
  destruct (truthy (JsObject.get id (activities st))); simpl in *.
  - by destruct (JsObject.delete id (activities st)).
  - by destruct (activities st).
Qed.

(** X6. [initSpanRecorder] never counts the transaction as an activity and
    never replaces a recorder: after it a recorder is attached, with the
    bound of the recorder that was already there if there was one; the
    activities and the timers are untouched, and the [finish] of the
    transaction has one more wrapper. *)
Theorem initSpanRecorder_keeps_recorder
    (maxlen' : nat) (st : IdleTransaction) :
  let st' := initSpanRecorder maxlen' st in
  activities st' = activities st
  ∧ timers st' = timers st
  ∧ children st' = children st
  ∧ trace st' = trace st
  ∧ spanId (base st') = spanId (base st)
  ∧ finishWrappers (base st') = S (finishWrappers (base st))
  ∧ maxlen <$> spanRecorder st' =
    Some (default maxlen' (maxlen <$> spanRecorder st))
  ∧ (∀ rec, spanRecorder st = Some rec →
       spanRecorder st' = Some (SpanRecorder_add This rec)).
Proof.
  unfold initSpanRecorder, add, pushActivity.
  destruct (spanRecorder st) as [rec|] eqn:Hrec; simpl; rewrite ?Hrec; simpl.
  - rewrite String.eqb_refl. destruct (has_pushActivity rec); simpl;
      repeat split; try done; intros ? [= <-]; done.
  - rewrite String.eqb_refl. simpl. repeat split; done.
Qed.

(** ** The heartbeat string of identifiers of one length *)

Lemma fold_left_append_flatten (ks : list string) (k : string) :
  fold_left String.append ks k = k +:+ flatten ks.
Proof.
  revert k. induction ks as [|k' ks IH]; intros k; simpl.
  - by rewrite string_app_nil_r.
  - by rewrite IH, string_app_assoc.
Qed.

Lemma heartbeatString_flatten (keys : list string) :
  heartbeatString keys = flatten keys.
Proof. destruct keys as [|k ks]; [done|]. apply fold_left_append_flatten. Qed.

Lemma string_app_inj_length (a b x y : string) :
  String.length a = String.length b → a +:+ x = b +:+ y → a = b ∧ x = y.
Proof.
  revert b. induction a as [|c a IH]; intros [|d b] Hlen H; try done.
  change (String c (a +:+ x) = String d (b +:+ y)) in H.
  injection H as -> H. injection Hlen as Hlen.
  destruct (IH b Hlen H) as [-> ->]. done.
Qed.

(** X7. When all identifiers have one and the same length, which is not
    zero, the heartbeat string determines the keys and their order: two
    lists of such keys with the same heartbeat string are the same list. *)
Theorem heartbeatString_injective_fixed_length
    (len : nat) (keys1 keys2 : list string) :
  0 < len →
  Forall (λ k, String.length k = len) keys1 →
  Forall (λ k, String.length k = len) keys2 →
  heartbeatString keys1 = heartbeatString keys2 →
  keys1 = keys2.
Proof.
  intros Hlen H1 H2. rewrite !heartbeatString_flatten.
  revert keys2 H2. induction H1 as [|k1 ks1 Hk1 _ IH]; intros keys2 H2 Heq.
  - destruct H2 as [|k2 ks2 Hk2 _]; [done|].
    destruct k2; [simpl in Hk2; lia | done].
  - destruct H2 as [|k2 ks2 Hk2 H2].
    + destruct k1; [simpl in Hk1; lia | done].
    + simpl in Heq.
      destruct (string_app_inj_length k1 k2 (flatten ks1) (flatten ks2))
        as [-> Hrest]; [congruence | done |].
      f_equal. by apply IH.
Qed.

Lemma heartbeatString_injective_fixed_length_witness :
  ["ab"; "cd"] = ["ab"; "cd"].
Proof.
  apply (heartbeatString_injective_fixed_length 2 ["ab"; "cd"] ["ab"; "cd"]).
  - lia.
  - repeat constructor.
  - repeat constructor.
  - reflexivity.
Defined.

(** ** Invariants of the timers and of the activities *)

Lemma timers_unique_view st st' :
  timers st' = timers st → nextTimerId st' = nextTimerId st →
  timers_unique st → timers_unique st'.
Proof. unfold timers_unique, timers_fresh. by intros -> ->. Qed.

Lemma timers_unique_arm st st' t :
  timers st' = timers st ++ [t] → timerId t = nextTimerId st →
  nextTimerId st' = S (nextTimerId st) →
  timers_unique st → timers_unique st'.
Proof.
  unfold timers_unique, timers_fresh. intros -> Hid -> [Hfresh Hnd]. split.
  - intros t' Hin. apply elem_of_app in Hin as [Hin|Hin].
    + apply Hfresh in Hin. lia.
    + apply list_elem_of_singleton in Hin. subst t'. lia.
  - rewrite fmap_app. apply NoDup_app. split; [done|]. split.
    + intros x Hx Hx'. apply list_elem_of_singleton in Hx'. subst x.
      apply list_elem_of_fmap in Hx as (t' & Ht' & Hin).
      apply Hfresh in Hin. lia.
    + apply NoDup_singleton.
Qed.

Lemma timers_unique_filter (P : Timer → Prop) `{∀ t, Decision (P t)} st st' :
  timers st' = filter P (timers st) → nextTimerId st' = nextTimerId st →
  timers_unique st → timers_unique st'.
Proof.
  unfold timers_unique, timers_fresh. intros -> -> [Hfresh Hnd]. split.
  - intros t Hin. apply list_elem_of_filter in Hin as [_ Hin]. auto.
  - eapply sublist_NoDup; [exact Hnd|]. apply fmap_sublist, sublist_filter.
Qed.

Lemma timers_unique_popActivity id now st :
  timers_unique st → timers_unique (_popActivity id now st).
Proof.
  intros Hinv. destruct (popActivity_timers id now st) as [Ht Hn].
  destruct (activities (_popActivity id now st)).
  - by eapply timers_unique_arm.
  - by eapply timers_unique_view.
Qed.

Lemma timers_unique_afterFinish k id now st :
  timers_unique st → timers_unique (Nat.iter k (afterFinish id now) st).
Proof.
  intros Hinv. induction k as [|k IH]; simpl; [done|].
  unfold afterFinish at 1, popActivity.
  destruct (spanRecorder _) as [rec|]; [|done].
  destruct (has_popActivity rec); [|done].
  destruct (String.eqb id _); [done|].
  by apply timers_unique_popActivity.
Qed.

Lemma add_timers r st :
  timers (add r st) = timers st ∧ nextTimerId (add r st) = nextTimerId st.
Proof.
  unfold add.
  destruct (spanRecorder st) as [rec|]; [|done].
  destruct (deref st r) as [span|]; [|done].
  unfold pushActivity.
  destruct (has_pushActivity rec); [|by destruct r].
  match goal with
  | |- context [String.eqb ?a ?b] => destruct (String.eqb a b)
  end; by destruct r.
Qed.

Lemma finishIdleTransaction_timers endTs now st :
  timers (_finishIdleTransaction endTs now st) = timers st
  ∧ nextTimerId (_finishIdleTransaction endTs now st) = nextTimerId st.
Proof.
  pose proof (finishIdleTransaction_frame endTs now st) as (_ & _ & ? & ? & _).
  done.
Qed.

Lemma timers_unique_beat now st :
  timers_unique st → timers_unique (_beat now st).
Proof.
  intros Hinv. rewrite beat_unfold. cbv zeta.
  set (counter := if bool_decide _ then _ else _).
  assert (timers_unique
            (set_heartbeat (clearTimeout (_heartbeatTimer st) st)
               (Some (String.concat EmptyString
                        (JsObject.keys (activities st)))) counter)) as Hc.
  { by eapply (timers_unique_filter (λ t, timerId t ≠ _heartbeatTimer st)). }
  destruct (Nat.leb 3 counter).
  - match goal with
    | |- timers_unique (_finishIdleTransaction ?e ?n ?s) =>
        destruct (finishIdleTransaction_timers e n s) as [Ht Hn];
        eapply (timers_unique_view _ _ Ht Hn)
    end.
    exact Hc.
  - by eapply timers_unique_arm.
Qed.

Lemma timers_unique_step st st' :
  engineStep st st' → timers_unique st → timers_unique st'.
Proof.
  intros Hstep Hinv. destruct Hstep.
  - unfold startChild. simpl.
    destruct (add_timers (Child (length (children st)))
                (set_children st
                   (children st ++ [mkSpan id now None None [] 0])))
      as [Ht Hn].
    by eapply timers_unique_view.
  - unfold finishSpan. destruct (children st !! n) as [span|]; [|done].
    apply timers_unique_afterFinish.
    destruct (finishWrappers span); [|done]. by eapply timers_unique_view.
  - rewrite finish_emit. by eapply timers_unique_view.
  - by eapply timers_unique_view.
  - unfold initSpanRecorder.
    match goal with
    | |- timers_unique (add This ?s) =>
        destruct (add_timers This s) as [Ht Hn];
        eapply (timers_unique_view s); [done..|]
    end.
    by destruct (spanRecorder st).
  - unfold fire in H.
    destruct (list_find _ _) as [[i t]|]; [|done].
    destruct (Qle_bool (due t) now); [|done]. injection H as <-.
    assert (timers_unique (unschedule id st)) as Hu
      by by eapply (timers_unique_filter (λ t, timerId t ≠ id)).
    destruct (callback t); simpl.
    + by apply timers_unique_beat.
    + destruct (finishIdleTransaction_timers end_ now (unschedule id st))
        as [Ht Hn].
      by eapply timers_unique_view.
Qed.

(** X8. Along every run of the engine from the constructor, whatever the
    instrumented code and the host do: timer identifiers are never reused,
    so no two pending timers share one; at most one heartbeat is pending,
    it is the one [_heartbeatTimer] names, and when it runs it finds a
    counter of at most 2. *)
Theorem engine_keeps_one_heartbeat
    (id : string) (hub : bool) (timeout : option Q) (now : Q)
    (st : IdleTransaction) :
  rtc engineStep (new_IdleTransaction id hub timeout now) st →
  timers_fresh st
  ∧ NoDup (timerId <$> timers st)
  ∧ (∀ t, t ∈ timers st → callback t = BeatCallback →
          timerId t = _heartbeatTimer st ∧ _heartbeatCounter st ≤ 2)
  ∧ (∀ t1 t2, t1 ∈ timers st → t2 ∈ timers st →
              callback t1 = BeatCallback → callback t2 = BeatCallback →
              t1 = t2).
Proof.
  intros Hrun.
  pose proof (heartbeat_inv_reachable _ _ _ _ _ Hrun) as [Hfresh Hbeat].
  assert (timers_unique st) as [_ Hnd].
  { assert (timers_unique (new_IdleTransaction id hub timeout now)) as Hinit.
    { unfold new_IdleTransaction, timers_unique, timers_fresh.
      destruct hub; simpl.
      all: split; [|apply NoDup_singleton].
      all: intros t Hin; apply list_elem_of_singleton in Hin; subst t;
        simpl; lia. }
    revert Hinit. clear Hfresh Hbeat.
    induction Hrun as [|st st1 st2 Hstep _ IH]; [done|].
    intros Hinv. apply IH. by eapply timers_unique_step. }
  repeat (split; [done|]).
  intros t1 t2 Hin1 Hin2 Hc1 Hc2.
  destruct (Hbeat t1 Hin1 Hc1) as [Hid1 _].
  destruct (Hbeat t2 Hin2 Hc2) as [Hid2 _].
  apply list_elem_of_lookup in Hin1 as [i1 Hi1].
  apply list_elem_of_lookup in Hin2 as [i2 Hi2].
  assert (i1 = i2) as ->; [|congruence].
  eapply NoDup_alt; [exact Hnd| |].
  - rewrite list_lookup_fmap, Hi1. simpl. by rewrite Hid1.
  - rewrite list_lookup_fmap, Hi2. simpl. by rewrite Hid2.
Qed.

Lemma engine_keeps_one_heartbeat_witness :
  rtc engineStep (new_IdleTransaction "root" true (Some 1000%Q) 0%Q) started
  ∧ NoDup (timerId <$> timers started).
Proof.
  assert (rtc engineStep
            (new_IdleTransaction "root" true (Some 1000%Q) 0%Q) started)
    as Hrun.
  { apply (rtc_l _ _ (initSpanRecorder 10
                        (new_IdleTransaction "root" true (Some 1000%Q) 0%Q))).
    { apply engineStep_initSpanRecorder. }
    apply rtc_once. apply engineStep_beforeFinish. }
  split; [exact Hrun|].
  apply (engine_keeps_one_heartbeat "root" true (Some 1000%Q) 0%Q _ Hrun).
Defined.

Lemma activities_wf_view st st' :
  spanId (base st') = spanId (base st) → activities st' = activities st →
  activities_wf st → activities_wf st'.
Proof. unfold activities_wf. by intros -> ->. Qed.

Lemma activities_wf_pushActivity id st :
  activities_wf st → activities_wf (pushActivity id st).
Proof.
  intros (Hroot & Hnd & Hall). unfold pushActivity.
  destruct (String.eqb_spec id (spanId (base st))) as [->|Hne]; [done|].
  unfold activities_wf, _pushActivity. simpl. split; [|split].
  - rewrite JsObject_keys_set. intros [?|?]; [congruence | done].
  - by apply JsObject_keys_NoDup_set.
  - by apply JsObject_set_all_true.
Qed.

Lemma activities_wf_popActivity id now st :
  activities_wf st → activities_wf (_popActivity id now st).
Proof.
  intros (Hroot & Hnd & Hall). unfold activities_wf.
  assert (base (_popActivity id now st) = base st) as ->
    by apply popActivity_frame.
  rewrite popActivity_delete by done. split; [|split].
  - rewrite JsObject_keys_delete. tauto.
  - by apply JsObject_keys_NoDup_delete.
  - by apply JsObject_delete_all_true.
Qed.

Lemma activities_wf_afterFinish k id now st :
  activities_wf st → activities_wf (Nat.iter k (afterFinish id now) st).
Proof.
  intros Hinv. induction k as [|k IH]; simpl; [done|].
  unfold afterFinish at 1, popActivity.
  destruct (spanRecorder _) as [rec|]; [|done].
  destruct (has_popActivity rec); [|done].
  destruct (String.eqb id _); [done|].
  by apply activities_wf_popActivity.
Qed.

Lemma activities_wf_add r st :
  activities_wf st → activities_wf (add r st).
Proof.
  intros Hinv. unfold add.
  destruct (spanRecorder st) as [rec|]; [|done].
  destruct (deref st r) as [span|] eqn:D; [|done].
  assert (activities_wf
            (set_spanRecorder (store r (wrapFinish span) st)
               (Some (SpanRecorder_add r rec)))) as Hinv'.
  { eapply activities_wf_view; [| |exact Hinv].
    - destruct r as [|n]; simpl; [|done]. simpl in D. by injection D as <-.
    - by destruct r. }
  destruct (has_pushActivity rec); [|done].
  by apply activities_wf_pushActivity.
Qed.

Lemma beat_activities now st :
  spanId (base (_beat now st)) = spanId (base st)
  ∧ activities (_beat now st) = activities st.
Proof.
  rewrite beat_unfold. cbv zeta.
  destruct (Nat.leb 3 _); [|done].
  match goal with
  | |- context [_finishIdleTransaction ?e ?n ?s] =>
      pose proof (finishIdleTransaction_frame e n s) as (-> & -> & _)
  end.
  done.
Qed.

Lemma initSpanRecorder_base maxlen st :
  spanId (base (initSpanRecorder maxlen st)) = spanId (base st).
Proof.
  unfold initSpanRecorder, add, pushActivity.
  destruct (spanRecorder st) as [rec|] eqn:Hrec; simpl; rewrite ?Hrec; simpl;
    rewrite String.eqb_refl; [by destruct (has_pushActivity rec) | done].
Qed.

Lemma activities_wf_step st st' :
  engineStep st st' → activities_wf st → activities_wf st'.
Proof.
  intros Hstep Hinv. destruct Hstep.
  - unfold startChild. simpl. apply activities_wf_add.
    by eapply activities_wf_view; [| |exact Hinv].
  - unfold finishSpan. destruct (children st !! n) as [span|]; [|done].
    apply activities_wf_afterFinish.
    destruct (finishWrappers span); [|done].
    by eapply activities_wf_view; [| |exact Hinv].
  - rewrite finish_emit. by eapply activities_wf_view; [| |exact Hinv].
  - by eapply activities_wf_view; [| |exact Hinv].
  - unfold initSpanRecorder. apply activities_wf_add.
    destruct (spanRecorder st); [done|].
    by eapply activities_wf_view; [| |exact Hinv].
  - unfold fire in H.
    destruct (list_find _ _) as [[i t]|]; [|done].
    destruct (Qle_bool (due t) now); [|done]. injection H as <-.
    destruct (callback t); simpl.
    + destruct (beat_activities now (unschedule id st)) as [Hb Ha].
      by eapply activities_wf_view; [| |exact Hinv].
    + pose proof (finishIdleTransaction_frame end_ now (unschedule id st))
        as (Hb & Ha & _).
      eapply activities_wf_view; [| |exact Hinv]; [by rewrite Hb | done].
Qed.

Lemma engineStep_spanId st st' :
  engineStep st st' → spanId (base st') = spanId (base st).
Proof.
  intros Hstep.
  destruct Hstep as [id' now' st|n e now' st|e now' st|cb st|m st
                    |tid now' st st' Hf].
  - by pose proof (startChild_frame id' now' st) as (-> & _).
  - unfold finishSpan. destruct (children st !! n) as [span|]; [|done].
    match goal with
    | |- context [Nat.iter _ _ ?s] => set (s1 := s)
    end.
    assert (base s1 = base st) as <-
      by (subst s1; by destruct (finishWrappers span)).
    clearbody s1.
    induction (finishWrappers span) as [|k IH]; simpl; [done|].
    unfold afterFinish at 1, popActivity.
    destruct (spanRecorder _) as [rec|]; [|done].
    destruct (has_popActivity rec); [|done].
    destruct (String.eqb _ _); [done|].
    match goal with
    | |- context [_popActivity ?i ?t ?s] =>
        pose proof (popActivity_frame i t s) as (-> & _)
    end.
    done.
  - by rewrite finish_emit.
  - done.
  - apply initSpanRecorder_base.
  - unfold fire in Hf.
    destruct (list_find _ _) as [[i t]|]; [|done].
    destruct (Qle_bool (due t) now'); [|done]. injection Hf as <-.
    destruct (callback t); simpl.
    + by destruct (beat_activities now' (unschedule tid st)) as [-> _].
    + by pose proof (finishIdleTransaction_frame end_ now'
                       (unschedule tid st)) as (-> & _).
Qed.

(** X9. Along every run of the engine from the constructor, timers
    included: the identifier of the transaction never changes and is never
    an activity, no identifier is an activity twice, and every flag stored
    is [true]. *)
Theorem engine_never_tracks_the_transaction
    (id : string) (hub : bool) (timeout : option Q) (now : Q)
    (st : IdleTransaction) :
  rtc engineStep (new_IdleTransaction id hub timeout now) st →
  spanId (base st) = id
  ∧ (id ∉ JsObject.keys (activities st))
  ∧ NoDup (JsObject.keys (activities st))
  ∧ ∀ k, k ∈ JsObject.keys (activities st) →
         JsObject.get k (activities st) = Some true.
Proof.
  intros Hrun.
  assert (spanId (base st) = id ∧ activities_wf st) as [Hid (H1 & H2 & H3)].
  { assert (spanId (base (new_IdleTransaction id hub timeout now)) = id
            ∧ activities_wf (new_IdleTransaction id hub timeout now)) as Hinit.
    { unfold new_IdleTransaction, activities_wf. destruct hub; simpl.
      all: split; [done|]; split; [apply not_elem_of_nil|].
      all: split; constructor. }
    revert Hinit. induction Hrun as [|st st1 st2 Hstep _ IH]; [done|].
    intros [Hid Hinv]. apply IH. split.
    - by rewrite (engineStep_spanId _ _ Hstep).
    - by eapply activities_wf_step. }
  rewrite <-Hid at 2. repeat (split; [done|]).
  intros k Hk. by apply JsObject_get_true.
Qed.

Lemma engine_never_tracks_the_transaction_witness :
  rtc engineStep (new_IdleTransaction "root" true (Some 1000%Q) 0%Q) started
  ∧ ("root" ∉ JsObject.keys (activities started)).
Proof.
  assert (rtc engineStep
            (new_IdleTransaction "root" true (Some 1000%Q) 0%Q) started)
    as Hrun.
  { apply (rtc_l _ _ (initSpanRecorder 10
                        (new_IdleTransaction "root" true (Some 1000%Q) 0%Q))).
    { apply engineStep_initSpanRecorder. }
    apply rtc_once. apply engineStep_beforeFinish. }
  split; [exact Hrun|].
  apply (engine_never_tracks_the_transaction
           "root" true (Some 1000%Q) 0%Q _ Hrun).
Defined.

(** ** Three heartbeats without a change *)

(** What one run of [_beat] leaves, in the terms the runs of the host need. *)
Lemma beat_outcome (now : Q) (u : IdleTransaction) :
  let hb := heartbeatString (JsObject.keys (activities u)) in
  let c := if bool_decide (_prevHeartbeatString u = Some hb)
           then S (_heartbeatCounter u) else 1 in
  let u' := _beat now u in
  activities u' = activities u
  ∧ _prevHeartbeatString u' = Some hb
  ∧ _heartbeatCounter u' = c
  ∧ (is_Some (spanRecorder u) → is_Some (spanRecorder u'))
  ∧ (c < 3 →
       finishCalls u' = finishCalls u
       ∧ timers u' =
         filter (λ t, timerId t ≠ _heartbeatTimer u) (timers u)
         ++ [mkTimer (nextTimerId u) now 5000 BeatCallback]
       ∧ nextTimerId u' = S (nextTimerId u)
       ∧ _heartbeatTimer u' = nextTimerId u)
  ∧ (3 ≤ c →
       status (base u') = Some DeadlineExceeded
       ∧ JsObject.get "heartbeat" (tags (base u')) = Some "failed"
       ∧ (is_Some (spanRecorder u) → finishCalls u' = S (finishCalls u))).
Proof.
  intros hb c u'. subst u'. rewrite beat_unfold. cbv zeta.
  subst c hb. rewrite heartbeatString_concat.
  set (hb := String.concat EmptyString (JsObject.keys (activities u))).
  set (c := if bool_decide _ then _ else _).
  destruct (Nat.leb 3 c) eqn:E.
  - apply Nat.leb_le in E.
    match goal with
    | |- context [_finishIdleTransaction now now ?x] => set (st5 := x)
    end.
    pose proof (finishIdleTransaction_frame now now st5)
      as (F1 & F2 & _ & _ & _ & F6 & F7 & _).
    rewrite F1, F2, F6, F7.
    split; [done|]. split; [done|]. split; [done|]. split.
    { intros [rec Hrec].
      rewrite (finishIdleTransaction_recorder now now st5 rec) by done.
      by eexists. }
    split; [intros; lia|]. intros _.
    split; [done|]. split; [apply JsObject_get_set_eq|].
    intros Hrec.
    destruct (finishIdleTransaction_calls now now st5 Hrec) as [-> _].
    unfold finishCalls. simpl. rewrite List.filter_app. simpl.
    by rewrite app_nil_r.
  - apply Nat.leb_gt in E.
    split; [done|]. split; [done|]. split; [done|]. split; [done|].
    split; [|intros; lia]. done.
Qed.

(** What the host's run of the pending heartbeat leaves. *)
Lemma fire_heartbeat (s s' : IdleTransaction) (now : Q) (i : nat) (t : Timer) :
  timers_fresh s →
  list_find (λ t', timerId t' = _heartbeatTimer s) (timers s) = Some (i, t) →
  callback t = BeatCallback →
  fire (_heartbeatTimer s) now s = Some s' →
  let hb := heartbeatString (JsObject.keys (activities s)) in
  let c := if bool_decide (_prevHeartbeatString s = Some hb)
           then S (_heartbeatCounter s) else 1 in
  activities s' = activities s
  ∧ _prevHeartbeatString s' = Some hb
  ∧ _heartbeatCounter s' = c
  ∧ (is_Some (spanRecorder s) → is_Some (spanRecorder s'))
  ∧ (c < 3 →
       finishCalls s' = finishCalls s
       ∧ timers_fresh s'
       ∧ ∃ i' t',
           list_find (λ t', timerId t' = _heartbeatTimer s') (timers s')
           = Some (i', t')
           ∧ callback t' = BeatCallback)
  ∧ (3 ≤ c →
       status (base s') = Some DeadlineExceeded
       ∧ JsObject.get "heartbeat" (tags (base s')) = Some "failed"
       ∧ (is_Some (spanRecorder s) → finishCalls s' = S (finishCalls s))).
Proof.
  intros Hfresh Hfind Hcb Hfire hb c.
  rewrite (fire_found _ _ _ _ _ Hfind), Hcb in Hfire.
  destruct (Qle_bool (due t) now); [|done]. injection Hfire as <-.
  pose proof (beat_outcome now (unschedule (_heartbeatTimer s) s))
    as (B1 & B2 & B3 & B4 & B5 & B6).
  simpl in B1, B2, B3, B4, B5, B6. simpl.
  fold hb in B2, B3, B5, B6. fold c in B3, B5, B6.
  repeat (split; [done|]). split; [|exact B6].
  intros Hc. destruct (B5 Hc) as (G1 & G2 & G3 & G4).
  assert (∀ t', t' ∈ filter (λ t0, timerId t0 ≠ _heartbeatTimer s)
                      (filter (λ t0, timerId t0 ≠ _heartbeatTimer s) (timers s))
                → timerId t' < nextTimerId s) as Hu.
  { intros t' Hin.
    apply list_elem_of_filter in Hin as [_ Hin].
    apply list_elem_of_filter in Hin as [_ Hin]. by apply Hfresh. }
  split; [exact G1|]. split.
  - intros t' Hin. rewrite G2 in Hin. rewrite G3.
    apply elem_of_app in Hin as [Hin|Hin].
    + apply Hu in Hin. lia.
    + apply list_elem_of_singleton in Hin. subst t'. simpl. lia.
  - eexists _, _. split.
    + rewrite G2, G4. apply list_find_fresh; [|done].
      intros t' Hin. apply Hu in Hin. lia.
    + reflexivity.
Qed.

(** X10. The safeguard that keeps a transaction from running forever.  Take
    a state whose pending heartbeat will find a new string (for one, a
    transaction that has not had a tick yet).  When the host then runs the
    heartbeat three times and the activities are the same at each, the
    first two runs finalise nothing and count 1 and 2; the third counts 3,
    gives the transaction the status DeadlineExceeded and the tag
    heartbeat=failed, and enters the finish path once if a recorder is
    attached. *)
Theorem three_unchanged_beats_finalize
    (st s1 s2 s3 : IdleTransaction) (t1 t2 t3 : Q) (i : nat) (t : Timer) :
  timers_fresh st →
  list_find (λ t', timerId t' = _heartbeatTimer st) (timers st) = Some (i, t) →
  callback t = BeatCallback →
  _prevHeartbeatString st
  ≠ Some (heartbeatString (JsObject.keys (activities st))) →
  fire (_heartbeatTimer st) t1 st = Some s1 →
  fire (_heartbeatTimer s1) t2 s1 = Some s2 →
  fire (_heartbeatTimer s2) t3 s2 = Some s3 →
  _heartbeatCounter s1 = 1 ∧ finishCalls s1 = finishCalls st
  ∧ _heartbeatCounter s2 = 2 ∧ finishCalls s2 = finishCalls st
  ∧ _heartbeatCounter s3 = 3
  ∧ activities s3 = activities st
  ∧ status (base s3) = Some DeadlineExceeded
  ∧ JsObject.get "heartbeat" (tags (base s3)) = Some "failed"
  ∧ (is_Some (spanRecorder st) → finishCalls s3 = S (finishCalls st)).
Proof.
  intros Hfresh Hfind Hcb Hnew Hf1 Hf2 Hf3.
  destruct (fire_heartbeat st s1 t1 i t Hfresh Hfind Hcb Hf1)
    as (A1 & P1 & C1 & R1 & L1 & _).
  rewrite bool_decide_eq_false_2 in C1, L1 by done.
  destruct L1 as (N1 & Hfresh1 & i1 & b1 & Hfind1 & Hcb1); [lia|].
  destruct (fire_heartbeat s1 s2 t2 i1 b1 Hfresh1 Hfind1 Hcb1 Hf2)
    as (A2 & P2 & C2 & R2 & L2 & _).
  rewrite ?A1, ?P1, ?C1 in C2, L2, P2.
  rewrite bool_decide_eq_true_2 in C2, L2 by done.
  destruct L2 as (N2 & Hfresh2 & i2 & b2 & Hfind2 & Hcb2); [lia|].
  destruct (fire_heartbeat s2 s3 t3 i2 b2 Hfresh2 Hfind2 Hcb2 Hf3)
    as (A3 & P3 & C3 & R3 & _ & L3).
  rewrite ?A2, ?A1, ?P2, ?C2 in C3, L3.
  rewrite bool_decide_eq_true_2 in C3, L3 by done.
  destruct L3 as (S3 & T3 & F3); [lia|].
  repeat split; try congruence.
  intros Hrec. rewrite F3 by auto. congruence.
Qed.

(** The transaction of the scenarios, with the host on time. *)
Lemma three_unchanged_beats_finalize_witness :
  ∃ s1 s2 s3,
    fire 1 5%Q started = Some s1
    ∧ fire 2 10%Q s1 = Some s2
    ∧ fire 3 15%Q s2 = Some s3
    ∧ status (base s3) = Some DeadlineExceeded.
Proof.
  eexists _, _, _.
  assert (timers_fresh started) as Hfresh.
  { intros t Ht. vm_compute in Ht.
    apply list_elem_of_singleton in Ht as ->. vm_compute. lia. }
  split; [vm_compute; reflexivity|].
  split; [vm_compute; reflexivity|].
  split; [vm_compute; reflexivity|].
  eapply (three_unchanged_beats_finalize started _ _ _ 5%Q 10%Q 15%Q 0
            (mkTimer 1 0%Q 5000%Q BeatCallback) Hfresh).
  - reflexivity.
  - reflexivity.
  - discriminate.
  - vm_compute. reflexivity.
  - vm_compute. reflexivity.
  - vm_compute. reflexivity.
Defined.

(** * The routing instrumentation *)

Section TracingRouterFacts.

Context {Location : Type}.
Variable pathname : Location → string.
Variable startTransaction : string → string → bool → Q → Q → IdleTransaction.

Local Abbreviation router := (TracingRouter.t Location).
Local Abbreviation routerOptions := (TracingRouter.Options Location).
Local Abbreviation options := (TracingRouter.options Location).
Local Abbreviation active := (TracingRouter._activeTransaction Location).
Local Abbreviation transactions := (TracingRouter.transactions Location).
Local Abbreviation historyHandlers := (TracingRouter.historyHandlers Location).
Local Abbreviation _startIdleTransaction :=
  (TracingRouter._startIdleTransaction Location pathname startTransaction).
Local Abbreviation historyCallback :=
  (TracingRouter.historyCallback Location pathname startTransaction).
Local Abbreviation init :=
  (TracingRouter.init Location pathname startTransaction).
Local Abbreviation reachable :=
  (TracingRouter.reachable Location pathname startTransaction).

(** The name a transaction started at [loc] gets, if any. *)
Local Abbreviation nameAt r loc :=
  (match TracingRouter.beforeNavigate Location (options r) with
   | Some f => f loc
   | None => Some (pathname loc)
   end).

Lemma startIdleTransaction_started hub op timeout loc now (r : router) name :
  hub = true → nameAt r loc = Some name →
  _startIdleTransaction hub op timeout (Some loc) now r =
  (Some (length (transactions r)),
   TracingRouter.mkRouter Location (options r) (Some (length (transactions r)))
     (transactions r ++ [startTransaction name op true timeout now])
     (historyHandlers r)).
Proof.
  intros -> Hname. unfold TracingRouter._startIdleTransaction. simpl.
  by rewrite Hname.
Qed.

Lemma startIdleTransaction_none hub op timeout location now (r : router) :
  (location = None ∨ hub = false
   ∨ ∃ loc, location = Some loc ∧ nameAt r loc = None) →
  _startIdleTransaction hub op timeout location now r = (None, r).
Proof.
  unfold TracingRouter._startIdleTransaction.
  intros [->|[->|(loc & -> & Hname)]]; [done| |].
  - by destruct location.
  - destruct hub; simpl; [|done]. by rewrite Hname.
Qed.

(** X11. A history change that starts a navigation.  When location changes
    are enabled, the hub and the location are there and a name is found, the
    callback creates one transaction, for the operation "navigation", makes
    it the active one and registers the callback of [init] on it (also when
    that callback is undefined).  The transaction that was active has had
    [finish] called with the current time, which enters its finish path
    once and leaves its timers pending; every other transaction is as it
    was. *)
Theorem navigation_replaces_active
    (hub : bool) (timeout : Q) (cb : option nat) (loc : Location)
    (now now' : Q) (r : router) (name : string) :
  truthy (TracingRouter.startTransactionOnLocationChange Location (options r))
  = true →
  hub = true →
  nameAt r loc = Some name →
  let r' := historyCallback hub timeout cb (Some loc) now now' r in
  let fresh := length (transactions r) in
  active r' = Some fresh
  ∧ length (transactions r') = S fresh
  ∧ transactions r' !! fresh =
    Some (beforeFinish cb
            (startTransaction name "navigation" true timeout now'))
  ∧ (∀ h tx, active r = Some h → transactions r !! h = Some tx →
       transactions r' !! h = Some (finish (Some now) now tx)
       ∧ finishCalls (finish (Some now) now tx) = S (finishCalls tx)
       ∧ timers (finish (Some now) now tx) = timers tx)
  ∧ (∀ h tx, active r ≠ Some h → transactions r !! h = Some tx →
       transactions r' !! h = Some tx).
Proof.
  intros Hflag Hhub Hname r' fresh. subst r'.
  unfold TracingRouter.historyCallback. rewrite Hflag.
  set (r1 := match active r with
             | Some h => TracingRouter.call Location h (finish (Some now) now) r
             | None => r
             end).
  assert (options r1 = options r) as Hopt by (subst r1; by destruct (active r)).
  assert (length (transactions r1) = fresh) as Hlen.
  { subst r1. destruct (active r); simpl; [apply length_alter | done]. }
  rewrite (startIdleTransaction_started _ _ _ _ _ _ name Hhub)
    by by rewrite Hopt.
  simpl. rewrite Hlen.
  split; [done|]. split.
  { rewrite length_alter, length_app, Hlen. simpl. lia. }
  split.
  { rewrite list_lookup_alter_eq, lookup_app_r by lia.
    by rewrite Hlen, Nat.sub_diag. }
  split.
  - intros h tx Hact Htx.
    assert (h < fresh) as Hlt by (by eapply lookup_lt_Some).
    rewrite list_lookup_alter_ne, lookup_app_l by lia.
    subst r1. rewrite Hact. simpl.
    rewrite list_lookup_alter_eq, Htx. simpl.
    rewrite finish_emit. unfold finishCalls. simpl.
    rewrite List.filter_app, length_app. simpl. split; [done|]. split; [lia|done].
  - intros h tx Hact Htx.
    assert (h < fresh) as Hlt by (by eapply lookup_lt_Some).
    rewrite list_lookup_alter_ne, lookup_app_l by lia.
    subst r1. destruct (active r) as [h'|]; simpl; [|done].
    rewrite list_lookup_alter_ne; [done | congruence].
Qed.

(** X12. A history change that finds no name.  When location changes are
    enabled but there is no location, or no hub, or [beforeNavigate] returns
    null, the callback still calls [finish] on the active transaction, and
    the router is left without an active transaction; no transaction is
    created. *)
Theorem navigation_without_name_clears_active
    (hub : bool) (timeout : Q) (cb : option nat) (location : option Location)
    (now now' : Q) (r : router) :
  truthy (TracingRouter.startTransactionOnLocationChange Location (options r))
  = true →
  (location = None ∨ hub = false
   ∨ ∃ loc, location = Some loc ∧ nameAt r loc = None) →
  let r' := historyCallback hub timeout cb location now now' r in
  active r' = None
  ∧ transactions r' =
    match active r with
    | Some h => alter (finish (Some now) now) h (transactions r)
    | None => transactions r
    end
  ∧ length (transactions r') = length (transactions r).
Proof.
  intros Hflag Hnone r'. subst r'.
  unfold TracingRouter.historyCallback. rewrite Hflag.
  rewrite startIdleTransaction_none; cycle 1.
  { destruct Hnone as [?|[?|(loc & ? & ?)]]; [auto..|].
    right. right. exists loc. split; [done|]. by destruct (active r). }
  simpl. destruct (active r); simpl; rewrite ?length_alter; done.
Qed.


Lemma call_options h f (r : router) :
  options (TracingRouter.call Location h f r) = options r.
Proof. done. Qed.

Lemma startIdleTransaction_options hub op timeout location now (r : router) :
  options (_startIdleTransaction hub op timeout location now r).2 = options r.
Proof.
  unfold TracingRouter._startIdleTransaction.
  destruct location as [loc|]; [|done]. destruct (negb hub); [done|].
  by destruct (nameAt r loc).
Qed.

Lemma historyCallback_options hub timeout cb location now now' (r : router) :
  options (historyCallback hub timeout cb location now now' r) = options r.
Proof.
  unfold TracingRouter.historyCallback.
  destruct (truthy _); [|done].
  match goal with
  | |- context [_startIdleTransaction ?a ?b ?c ?d ?e ?f] =>
      pose proof (startIdleTransaction_options a b c d e f) as Ho;
      destruct (_startIdleTransaction a b c d e f) as [[h|] r2]
  end; simpl in *; rewrite Ho; by destruct (active r).
Qed.

Lemma startIdleTransaction_handlers hub op timeout location now (r : router) :
  historyHandlers (_startIdleTransaction hub op timeout location now r).2
  = historyHandlers r.
Proof.
  unfold TracingRouter._startIdleTransaction.
  destruct location as [loc|]; [|done]. destruct (negb hub); [done|].
  by destruct (nameAt r loc).
Qed.

Lemma init_handlers hub timeout cb location now (r : router) :
  historyHandlers (init hub timeout cb location now r)
  = historyHandlers r ++ [(hub, timeout, cb)].
Proof.
  unfold TracingRouter.init. destruct (truthy _); [|done].
  pose proof (startIdleTransaction_handlers hub "pageload" timeout location
                now r) as Ho.
  destruct (_startIdleTransaction hub "pageload" timeout location now r)
    as [[h|] r2]; simpl in *; rewrite <-Ho; by destruct cb.
Qed.

Lemma init_options hub timeout cb location now (r : router) :
  options (init hub timeout cb location now r) = options r.
Proof.
  unfold TracingRouter.init. destruct (truthy _); [|done].
  pose proof (startIdleTransaction_options hub "pageload" timeout location
                now r) as Ho.
  destruct (_startIdleTransaction hub "pageload" timeout location now r)
    as [[h|] r2]; simpl in *; by destruct cb.
Qed.

(** X13. What [init] does to a router that has just been constructed.  It
    registers one history handler in every case.  It starts a transaction,
    for the operation "pageload", exactly when the page-load flag is truthy,
    the hub and the location are there and a name is found; that transaction
    is then the active one, and the callback is registered on it only if
    one was given. *)
Theorem init_starts_pageload
    (opts : option routerOptions) (hub : bool) (timeout : Q) (cb : option nat)
    (location : option Location) (now : Q) :
  let r0 := TracingRouter.new Location opts in
  let r' := init hub timeout cb location now r0 in
  historyHandlers r' = [(hub, timeout, cb)]
  ∧ options r' = options r0
  ∧ (∀ loc name,
       truthy (TracingRouter.startTransactionOnPageLoad Location (options r0))
       = true →
       hub = true → location = Some loc → nameAt r0 loc = Some name →
       active r' = Some 0
       ∧ transactions r' =
         [match cb with
          | Some _ =>
              beforeFinish cb
                (startTransaction name "pageload" true timeout now)
          | None => startTransaction name "pageload" true timeout now
          end])
  ∧ (truthy (TracingRouter.startTransactionOnPageLoad Location (options r0))
     = false
     ∨ location = None ∨ hub = false
     ∨ (∃ loc, location = Some loc ∧ nameAt r0 loc = None) →
     active r' = None ∧ transactions r' = []).
Proof.
  intros r0 r'. subst r'.
  split; [apply (init_handlers hub timeout cb location now r0)|].
  split; [apply (init_options hub timeout cb location now r0)|].
  split.
  - intros loc name Hflag Hhub -> Hname. unfold TracingRouter.init.
    rewrite Hflag.
    rewrite (startIdleTransaction_started _ _ _ _ _ _ name Hhub Hname).
    by destruct cb.
  - intros Hnone. unfold TracingRouter.init.
    destruct (truthy _) eqn:Hflag; [|done].
    destruct Hnone as [?|Hnone]; [done|].
    by rewrite (startIdleTransaction_none _ _ _ _ _ _ Hnone).
Qed.

Lemma reachable_options opts hub timeout cb (r : router) :
  reachable opts hub timeout cb r →
  options r = options (TracingRouter.new Location opts).
Proof.
  induction 1 as [location now|location now now' r _ IH].
  - apply init_options.
  - rewrite <-IH. apply historyCallback_options.
Qed.

Lemma historyCallback_handlers hub timeout cb location now now' (r : router) :
  historyHandlers (historyCallback hub timeout cb location now now' r)
  = historyHandlers r.
Proof.
  unfold TracingRouter.historyCallback.
  destruct (truthy _); [|done].
  match goal with
  | |- context [_startIdleTransaction ?a ?b ?c ?d ?e ?f] =>
      pose proof (startIdleTransaction_handlers a b c d e f) as Ho;
      destruct (_startIdleTransaction a b c d e f) as [[h|] r2]
  end; simpl in *; rewrite Ho; by destruct (active r).
Qed.

Lemma startIdleTransaction_cases hub op timeout location now (r : router) :
  _startIdleTransaction hub op timeout location now r = (None, r)
  ∨ ∃ name,
      _startIdleTransaction hub op timeout location now r =
      (Some (length (transactions r)),
       TracingRouter.mkRouter Location (options r)
         (Some (length (transactions r)))
         (transactions r ++ [startTransaction name op true timeout now])
         (historyHandlers r)).
Proof.
  unfold TracingRouter._startIdleTransaction.
  destruct location as [loc|]; [|by left]. destruct (negb hub); [by left|].
  destruct (nameAt r loc) as [name|]; [|by left]. right. by exists name.
Qed.

(** The invariant of the transactions of a router: the active one, if any,
    is the last one created, and every other one has had [finish] called. *)
Lemma router_inv_history hub timeout cb location now now' (r : router) :
  (∀ h, active r = Some h → S h = length (transactions r)) →
  (∀ h tx, transactions r !! h = Some tx → active r ≠ Some h →
           1 ≤ finishCalls tx) →
  let r' := historyCallback hub timeout cb location now now' r in
  (∀ h, active r' = Some h → S h = length (transactions r'))
  ∧ (∀ h tx, transactions r' !! h = Some tx → active r' ≠ Some h →
             1 ≤ finishCalls tx).
Proof.
  intros Hlast Hdone r'. subst r'. unfold TracingRouter.historyCallback.
  destruct (truthy _); [|done].
  set (r1 := match active r with
             | Some h => TracingRouter.call Location h (finish (Some now) now) r
             | None => r
             end).
  assert (length (transactions r1) = length (transactions r)) as Hlen.
  { subst r1. destruct (active r); simpl; [apply length_alter | done]. }
  assert (∀ h tx, transactions r1 !! h = Some tx → 1 ≤ finishCalls tx) as H1.
  { intros h tx Htx. subst r1. destruct (active r) as [a|] eqn:Ha; simpl in Htx.
    - destruct (decide (a = h)) as [->|Hne].
      + rewrite list_lookup_alter_eq in Htx.
        destruct (transactions r !! h) as [tx0|]; [|done].
        injection Htx as <-. rewrite finish_emit. unfold finishCalls. simpl.
        rewrite List.filter_app, length_app. simpl. lia.
      + rewrite list_lookup_alter_ne in Htx by done.
        eapply Hdone; [done | congruence].
    - eapply Hdone; done. }
  destruct (startIdleTransaction_cases hub "navigation" timeout location now' r1)
    as [->|[name ->]]; simpl.
  - split; [done|]. intros h tx Htx _. by eapply H1.
  - split.
    + intros h [= <-]. rewrite length_alter, length_app. simpl. lia.
    + intros h tx Htx Hne.
      assert (h ≠ length (transactions r1)) as Hh by congruence.
      rewrite list_lookup_alter_ne in Htx by done.
      apply lookup_app_Some in Htx as [Htx|[Hge Htx]]; [by eapply H1|].
      apply list_lookup_singleton_Some in Htx as [? _]. lia.
Qed.

(** X14. A router that was constructed and initialised once, after any
    number of history changes: it has one history handler, its active
    transaction, if it has one, is the last one the hub created for it, and
    every other transaction it started has had [finish] called. *)
Theorem router_finishes_superseded_transactions
    (opts : option routerOptions) (hub : bool) (timeout : Q) (cb : option nat)
    (r : router) :
  reachable opts hub timeout cb r →
  historyHandlers r = [(hub, timeout, cb)]
  ∧ (∀ h, active r = Some h → S h = length (transactions r))
  ∧ (∀ h tx, transactions r !! h = Some tx → active r ≠ Some h →
             1 ≤ finishCalls tx).
Proof.
  induction 1 as [location now|location now now' r _ (IH1 & IH2 & IH3)].
  - split; [apply (init_handlers hub timeout cb location now
                     (TracingRouter.new Location opts))|].
    unfold TracingRouter.init. destruct (truthy _); simpl; [|done].
    destruct (startIdleTransaction_cases hub "pageload" timeout location now
                (TracingRouter.new Location opts)) as [->|[name ->]]; simpl.
    + split; [done|]. intros h tx Htx. by rewrite lookup_nil in Htx.
    + destruct cb; simpl.
      all: split; [by intros h [= <-]|].
      all: intros [|h] tx Htx Hne; [done|].
      all: destruct h; done.
  - split; [by rewrite historyCallback_handlers|].
    by apply router_inv_history.
Qed.

(** X15. A router whose two flags are not truthy, for one a router
    constructed without options, never starts a transaction: after [init]
    and any number of history changes it has no transaction and no active
    one. *)
Theorem router_without_flags_starts_nothing
    (opts : option routerOptions) (hub : bool) (timeout : Q) (cb : option nat)
    (r : router) :
  truthy (TracingRouter.startTransactionOnPageLoad Location
            (options (TracingRouter.new Location opts))) = false →
  truthy (TracingRouter.startTransactionOnLocationChange Location
            (options (TracingRouter.new Location opts))) = false →
  reachable opts hub timeout cb r →
  transactions r = [] ∧ active r = None.
Proof.
  intros Hload Hchange Hr.
  induction Hr as [location now|location now now' r Hr IH].
  - unfold TracingRouter.init. by rewrite Hload.
  - unfold TracingRouter.historyCallback.
    by rewrite (reachable_options _ _ _ _ _ Hr), Hchange.
Qed.

End TracingRouterFacts.

(** A navigation to ["/a"] on the router of the scenarios. *)
Lemma navigation_replaces_active_witness :
  TracingRouter._activeTransaction string
    (TracingRouter.historyCallback string (λ loc, loc)
       scenario_startTransaction true 500%Q (Some 7) (Some "/a") 3%Q 3%Q
       scenario_router)
  = Some 1.
Proof.
  apply (navigation_replaces_active (λ loc, loc) scenario_startTransaction
           true 500%Q (Some 7) "/a" 3%Q 3%Q scenario_router "/a").
  - reflexivity.
  - reflexivity.
  - reflexivity.
Defined.

(** A navigation to the path that [beforeNavigate] refuses. *)
Lemma navigation_without_name_clears_active_witness :
  TracingRouter._activeTransaction string
    (TracingRouter.historyCallback string (λ loc, loc)
       scenario_startTransaction true 500%Q (Some 7) (Some "/skip") 3%Q 3%Q
       scenario_router)
  = None.
Proof.
  apply (navigation_without_name_clears_active (λ loc, loc)
           scenario_startTransaction true 500%Q (Some 7) (Some "/skip")
           3%Q 3%Q scenario_router).
  - reflexivity.
  - right. right. exists "/skip". split; reflexivity.
Defined.

(** The router of the scenarios after one navigation. *)
Lemma router_finishes_superseded_transactions_witness :
  TracingRouter.historyHandlers string
    (TracingRouter.historyCallback string (λ loc, loc)
       scenario_startTransaction true 500%Q (Some 7) (Some "/a") 3%Q 3%Q
       scenario_router)
  = [(true, 500%Q, Some 7)].
Proof.
  apply (router_finishes_superseded_transactions (λ loc, loc)
           scenario_startTransaction (Some scenario_options)
           true 500%Q (Some 7)).
  apply TracingRouter.reachable_history.
  apply TracingRouter.reachable_init.
Defined.

(** A router constructed without options. *)
Lemma router_without_flags_starts_nothing_witness :
  TracingRouter.transactions string
    (TracingRouter.historyCallback string (λ loc, loc)
       scenario_startTransaction true 500%Q (Some 7) (Some "/a") 3%Q 3%Q
       (TracingRouter.init string (λ loc, loc) scenario_startTransaction
          true 500%Q (Some 7) (Some "/") 0%Q
          (TracingRouter.new string None)))
  = [].
Proof.
  apply (router_without_flags_starts_nothing (λ loc, loc)
           scenario_startTransaction None true 500%Q (Some 7)).
  - reflexivity.
  - reflexivity.
  - apply TracingRouter.reachable_history.
    apply TracingRouter.reachable_init.
Defined.

(** * The event processor of the integration *)

Lemma JsObject_get_set_ne {V} (k k' : string) (v : V) (o : JsObject.t V) :
  k' ≠ k → JsObject.get k' (JsObject.set k v o) = JsObject.get k' o.
Proof.
  intros Hne.
  assert (String.eqb k k' = false) as E by (apply String.eqb_neq; congruence).
  induction o as [|[k0 v0] o IH]; simpl.
  - by rewrite E.
  - destruct (String.eqb_spec k0 k) as [->|Hk]; simpl.
    + by rewrite E.
    + by rewrite IH.
Qed.

Lemma falsy_zero (x : option Q) :
  falsy x = true ↔ x = None ∨ ∃ q, x = Some q ∧ (q == 0)%Q.
Proof.
  destruct x as [q|]; simpl.
  - rewrite Qeq_bool_iff. split; [eauto|].
    intros [?|(q' & [= <-] & ?)]; done.
  - split; auto.
Qed.

(** X16. The events the processor leaves alone, without logging anything:
    every event when the integration is gone or the maximum duration is 0;
    an event that is not a transaction; an event whose timestamp or start
    timestamp is missing or is 0; and a transaction whose duration is
    between 0 and the maximum, the bounds included. *)
Theorem processor_keeps_ordinary_events
    (self getCurrentHub : bool) (opts : BrowserTracing.Options)
    (event : BrowserTracing.Event) :
  self = false
  ∨ (BrowserTracing.maxTransactionDuration opts == 0)%Q
  ∨ BrowserTracing.type_ event ≠ Some "transaction"
  ∨ falsy (BrowserTracing.timestamp event) = true
  ∨ falsy (BrowserTracing.start_timestamp event) = true
  ∨ (∃ ts start,
       BrowserTracing.timestamp event = Some ts
       ∧ BrowserTracing.start_timestamp event = Some start
       ∧ (0 <= ts - start)%Q
       ∧ (ts - start <= BrowserTracing.maxTransactionDuration opts)%Q) →
  BrowserTracing.eventProcessor self getCurrentHub opts event = (event, []).
Proof.
  unfold BrowserTracing.eventProcessor, BrowserTracing.isOutdatedTransaction.
  intros [->|[Hz|[Hty|[Hts|[Hst|(ts & start & Hts & Hst & Hge & Hle)]]]]].
  - done.
  - destruct self; [|done]. apply Qeq_bool_iff in Hz. by rewrite Hz.
  - destruct self; [|done]. rewrite (bool_decide_eq_false_2 _ Hty).
    by rewrite andb_false_r.
  - destruct self; [|done]. rewrite Hts. simpl. by rewrite !andb_false_r.
  - destruct self; [|done]. rewrite Hst. simpl. by rewrite !andb_false_r.
  - destruct self; [|done]. rewrite Hts, Hst.
    assert (Qlt_bool (BrowserTracing.maxTransactionDuration opts) (ts - start)
            = false) as ->.
    { destruct (Qlt_bool _ _) eqn:E; [|done].
      apply Qlt_bool_iff in E. by apply Qlt_not_le in E. }
    assert (Qlt_bool (ts - start) 0 = false) as ->.
    { destruct (Qlt_bool _ _) eqn:E; [|done].
      apply Qlt_bool_iff in E. by apply Qlt_not_le in E. }
    simpl. by rewrite !andb_false_r.
Qed.

(** A transaction that lasted exactly the maximum. *)
Lemma processor_keeps_ordinary_events_witness :
  BrowserTracing.eventProcessor true true
    (BrowserTracing.mkOptions 600%Q (Some false))
    (BrowserTracing.mkEvent (Some 700%Q) (Some 100%Q) (Some "transaction")
       (Some [("trace", [("op", BrowserTracing.JsString "pageload")])]) None)
  = (BrowserTracing.mkEvent (Some 700%Q) (Some 100%Q) (Some "transaction")
       (Some [("trace", [("op", BrowserTracing.JsString "pageload")])]) None,
     []).
Proof.
  apply processor_keeps_ordinary_events.
  do 5 right. exists 700%Q, 100%Q.
  split; [reflexivity|]. split; [reflexivity|].
  split; vm_compute; discriminate.
Defined.

(** X17. A transaction the processor flags: with the integration there, a
    maximum that is not 0, both timestamps set and not 0, and a duration
    above the maximum or below 0.  The processor logs in every such case.
    If the event has a trace context, its status becomes DeadlineExceeded
    and the event gets the tag maxTransactionDurationExceeded=true; the
    other entries of the trace context, the other contexts, the other tags,
    the timestamps and the type are as before.  If it has none, the event is
    returned as it is. *)
Theorem processor_flags_outdated_transaction
    (getCurrentHub : bool) (opts : BrowserTracing.Options)
    (event : BrowserTracing.Event) (ts start : Q) :
  ¬ (BrowserTracing.maxTransactionDuration opts == 0)%Q →
  BrowserTracing.type_ event = Some "transaction" →
  BrowserTracing.timestamp event = Some ts → ¬ (ts == 0)%Q →
  BrowserTracing.start_timestamp event = Some start → ¬ (start == 0)%Q →
  (BrowserTracing.maxTransactionDuration opts < ts - start)%Q
  ∨ (ts - start < 0)%Q →
  let res := BrowserTracing.eventProcessor true getCurrentHub opts event in
  BrowserTracing.LoggerLog ∈ res.2
  ∧ BrowserTracing.timestamp res.1 = Some ts
  ∧ BrowserTracing.start_timestamp res.1 = Some start
  ∧ BrowserTracing.type_ res.1 = Some "transaction"
  ∧ (∀ ctx trace,
       BrowserTracing.contexts event = Some ctx →
       JsObject.get "trace" ctx = Some trace →
       ∃ ctx' trace' tags',
         BrowserTracing.contexts res.1 = Some ctx'
         ∧ JsObject.get "trace" ctx' = Some trace'
         ∧ JsObject.get "status" trace'
           = Some (BrowserTracing.JsStatus DeadlineExceeded)
         ∧ (∀ k, k ≠ "status" → JsObject.get k trace' = JsObject.get k trace)
         ∧ (∀ k, k ≠ "trace" → JsObject.get k ctx' = JsObject.get k ctx)
         ∧ BrowserTracing.tags res.1 = Some tags'
         ∧ JsObject.get "maxTransactionDurationExceeded" tags' = Some "true"
         ∧ (∀ k, k ≠ "maxTransactionDurationExceeded" →
                 JsObject.get k tags'
                 = JsObject.get k (default [] (BrowserTracing.tags event))))
  ∧ (BrowserTracing.contexts event = None
     ∨ (∃ ctx, BrowserTracing.contexts event = Some ctx
               ∧ JsObject.get "trace" ctx = None) →
     res.1 = event).
Proof.
  intros Hmax Hty Hts Hts0 Hst Hst0 Hdur res. subst res.
  unfold BrowserTracing.eventProcessor, BrowserTracing.isOutdatedTransaction.
  rewrite Hty, Hts, Hst. simpl.
  assert (Qeq_bool (BrowserTracing.maxTransactionDuration opts) 0 = false) as ->.
  { destruct (Qeq_bool _ _) eqn:E; [|done]. by apply Qeq_bool_iff in E. }
  assert (Qeq_bool ts 0 = false) as ->.
  { destruct (Qeq_bool _ _) eqn:E; [|done]. by apply Qeq_bool_iff in E. }
  assert (Qeq_bool start 0 = false) as ->.
  { destruct (Qeq_bool _ _) eqn:E; [|done]. by apply Qeq_bool_iff in E. }
  assert (Qlt_bool (BrowserTracing.maxTransactionDuration opts) (ts - start)
          || Qlt_bool (ts - start) 0 = true) as ->.
  { apply orb_true_iff. destruct Hdur as [H|H]; [left|right];
      by apply Qlt_bool_iff. }
  rewrite ?bool_decide_eq_true_2 by done. simpl.
  assert (BrowserTracing.LoggerLog ∈ BrowserTracing._log opts getCurrentHub)
    as Hlog.
  { unfold BrowserTracing._log. apply elem_of_app. right. left. }
  destruct (BrowserTracing.contexts event) as [ctx|] eqn:Hctx.
  - destruct (JsObject.get "trace" ctx) as [trace|] eqn:Htrace; simpl.
    + split; [done|]. split; [done|]. split; [done|]. split; [done|]. split.
      * intros ctx0 trace0 [= <-] Ht0.
        rewrite Htrace in Ht0. injection Ht0 as <-.
        eexists _, _, _. split; [reflexivity|].
        split; [apply JsObject_get_set_eq|].
        split; [apply JsObject_get_set_eq|].
        split; [intros k Hk; by apply JsObject_get_set_ne|].
        split; [intros k Hk; by apply JsObject_get_set_ne|].
        split; [reflexivity|].
        split; [apply JsObject_get_set_eq|].
        intros k Hk. by apply JsObject_get_set_ne.
      * intros [?|(ctx0 & [= <-] & Hnone)]; [done|]. congruence.
    + split; [done|]. split; [done|]. split; [done|]. split; [done|]. split; [|done].
      intros ctx0 trace0 [= <-] Ht0. congruence.
  - simpl. split; [done|]. split; [done|]. split; [done|]. split; [done|]. split; [|done].
    intros ctx0 trace0 H0. done.
Qed.

(** A page load that took eleven minutes. *)
Lemma processor_flags_outdated_transaction_witness :
  BrowserTracing.LoggerLog
  ∈ (BrowserTracing.eventProcessor true true
       (BrowserTracing.mkOptions 600%Q (Some false))
       (BrowserTracing.mkEvent (Some 760%Q) (Some 100%Q) (Some "transaction")
          (Some [("trace", [("op", BrowserTracing.JsString "pageload")])])
          None)).2.
Proof.
  apply (processor_flags_outdated_transaction true
           (BrowserTracing.mkOptions 600%Q (Some false))
           (BrowserTracing.mkEvent (Some 760%Q) (Some 100%Q)
              (Some "transaction")
              (Some [("trace", [("op", BrowserTracing.JsString "pageload")])])
              None)
           760%Q 100%Q).
  - vm_compute. discriminate.
  - reflexivity.
  - reflexivity.
  - vm_compute. discriminate.
  - reflexivity.
  - vm_compute. discriminate.
  - left. vm_compute. reflexivity.
Defined.

Lemma eventProcessor_cases self getCurrentHub opts event :
  (BrowserTracing.eventProcessor self getCurrentHub opts event).1 = event
  ∨ ∃ ctx trace,
      self = true
      ∧ Qeq_bool (BrowserTracing.maxTransactionDuration opts) 0 = false
      ∧ BrowserTracing.type_ event = Some "transaction"
      ∧ BrowserTracing.isOutdatedTransaction opts event = true
      ∧ BrowserTracing.contexts event = Some ctx
      ∧ JsObject.get "trace" ctx = Some trace
      ∧ (BrowserTracing.eventProcessor self getCurrentHub opts event).1 =
        BrowserTracing.mkEvent (BrowserTracing.timestamp event)
          (BrowserTracing.start_timestamp event) (BrowserTracing.type_ event)
          (Some (JsObject.set "trace"
                   (JsObject.set "status"
                      (BrowserTracing.JsStatus DeadlineExceeded) trace) ctx))
          (Some (JsObject.set "maxTransactionDurationExceeded" "true"
                   (default [] (BrowserTracing.tags event)))).
Proof.
  unfold BrowserTracing.eventProcessor.
  destruct self; simpl; [|by left].
  destruct (Qeq_bool _ _) eqn:Hmax; simpl; [by left|].
  destruct (bool_decide _) eqn:Hty; simpl; [|by left].
  apply bool_decide_eq_true in Hty.
  destruct (BrowserTracing.isOutdatedTransaction opts event) eqn:Hout;
    simpl; [|by left].
  destruct (BrowserTracing.contexts event) as [ctx|] eqn:Hctx; [|by left].
  destruct (JsObject.get "trace" ctx) as [trace|] eqn:Htrace; [|by left].
  right. exists ctx, trace. done.
Qed.

(** X18. Processing an event a second time changes nothing more: the event
    the processor returns is a fixed point of the processor. *)
Theorem processor_idempotent
    (self getCurrentHub : bool) (opts : BrowserTracing.Options)
    (event : BrowserTracing.Event) :
  (BrowserTracing.eventProcessor self getCurrentHub opts
     (BrowserTracing.eventProcessor self getCurrentHub opts event).1).1
  = (BrowserTracing.eventProcessor self getCurrentHub opts event).1.
Proof.
  destruct (eventProcessor_cases self getCurrentHub opts event)
    as [H|(ctx & trace & -> & Hmax & Hty & Hout & Hctx & Htrace & ->)];
    [by rewrite H|].
  unfold BrowserTracing.eventProcessor at 1. simpl.
  rewrite Hmax, Hty.
  change (BrowserTracing.isOutdatedTransaction opts
            (BrowserTracing.mkEvent (BrowserTracing.timestamp event)
               (BrowserTracing.start_timestamp event) (Some "transaction")
               (Some (JsObject.set "trace"
                        (JsObject.set "status"
                           (BrowserTracing.JsStatus DeadlineExceeded) trace)
                        ctx))
               (Some (JsObject.set "maxTransactionDurationExceeded" "true"
                        (default [] (BrowserTracing.tags event))))))
    with (BrowserTracing.isOutdatedTransaction opts event).
  rewrite Hout. simpl. rewrite JsObject_get_set_eq. simpl.
  by rewrite !JsObject_set_set.
Qed.
